(** * A shallow embedding of go-nostr's relay client (relay.go)

    The development follows the source file top to bottom: the [Status]
    constants, the [Relay] struct, the message loop started by
    [Connect], and the calls [Publish], [Auth], [Subscribe], [QuerySync]
    and [PrepareSubscription].

    Goroutines and channels are rendered as follows.  Every function
    returns, next to its result, the list of [Action]s it performed, in
    program order: channel sends, frames written, mutex operations,
    registry updates.  A blocking wait ([select], [<-ctx.Done()]) is a
    recursive function over the list of [Occurrence]s that reach the
    waiting goroutine, in the order the scheduler presents them. *)

From stdpp Require Import gmap strings list pretty.
From Stdlib Require Import ZArith Lia.

Local Open Scope string_scope.
Local Open Scope Z_scope.
Local Open Scope list_scope.

(** ** Status (relay.go, lines 17-38) *)

Definition Status := Z.

Definition PublishStatusSent : Status := 0.
Definition PublishStatusFailed : Status := -1.
Definition PublishStatusSucceeded : Status := 1.

Definition Status_String (s : Status) : string :=
  if s =? PublishStatusSent then "sent"
  else if s =? PublishStatusFailed then "failed"
  else if s =? PublishStatusSucceeded then "success"
  else "unknown".

(** ** Constants of the imported packages *)

(** [time.Second], a [time.Duration] in nanoseconds. *)
Definition Second : Z := 1000000000.

(** Message types of gorilla/websocket. *)
Definition TextMessage : Z := 1.
Definition BinaryMessage : Z := 2.
Definition CloseMessage : Z := 8.
Definition PingMessage : Z := 9.
Definition PongMessage : Z := 10.

(** ** Collaborators

    The event type, the filter type and the JSON decoder are not part of
    relay.go.  The code only uses the operations listed here.  An
    [Unmarshal_*] function returns [None] where [json.Unmarshal] returns
    an error; the source ignores that error for every field, so the
    variable keeps its zero value ([json_string], [json_bool]).
    [Unmarshal_Event] is the value of the [Event] variable after the
    call, whatever the error. *)

Class Collaborators := {
  Event : Type;
  ID : Event → string;
  CheckSignature : Event → bool * option string;
  Filter : Type;
  Filter_IDs : list string → Filter;
  Match : list Filter → Event → bool;
  Unmarshal_array : string → option (list string);
  Unmarshal_string : string → option string;
  Unmarshal_bool : string → option bool;
  Unmarshal_Event : string → Event
}.

(** ** Contexts

    A [context.Context] is represented by its deadline; that it is done
    reaches a waiting goroutine as an [Occurrence]. *)

Record Context := { Deadline : option Z }.

(** [context.WithTimeout(ctx, d)] called at time [now]. *)
Definition WithTimeout (ctx : Context) (now d : Z) : Context :=
  {| Deadline := Some (match Deadline ctx with
                       | Some t => Z.min t (now + d)
                       | None => now + d
                       end) |}.

(** [context.WithCancel(ctx)]: same deadline, own cancel function. *)
Definition WithCancel (ctx : Context) : Context := ctx.

(** State of a cancellable context that is shared between goroutines. *)
Inductive CtxState := Live | Canceled.

(** ** Data (relay.go, lines 40-57) *)

(** The [okCallback] closures are created by [Publish] and by [Auth]; a
    closure is identified by the call that created it. *)
Inductive Callback :=
| PublishCallback (call : nat)
| AuthCallback (call : nat).

Record RecConn := {
  KeepAliveTimeout : Z;
  RecIntvlMin : Z
}.

(** How a call stands after the occurrences it was given. *)
Inductive Outcome (A : Type) :=
| Returned (a : A)
| Panicked
| Blocked.      (* still waiting after the occurrences given *)
Arguments Returned {A} a.
Arguments Panicked {A}.
Arguments Blocked {A}.

Section Relay.
Context `{Collaborators}.

(** Fields of [Subscription] that relay.go reads or writes.  [emitEose]
    is the [sync.Once]: [true] once [Do] has run.  The channels [Events]
    and [EndOfStoredEvents] appear as [Action]s. *)
Record Subscription := {
  counter : nat;
  Filters : list Filter;
  stopped : bool;
  emitEose : bool;
  sub_Context : Context
}.

(** The channels [Challenges], [Notices] and [Errors] appear as
    [Action]s. *)
Record Relay := {
  URL : string;
  Connection : option RecConn;
  subscriptions : gmap string Subscription;
  ConnectionContext : option CtxState;
  okCallbacks : gmap string Callback;
  AssumeValid : bool
}.

Definition set_subscriptions (r : Relay) (m : gmap string Subscription) : Relay :=
  {| URL := URL r; Connection := Connection r; subscriptions := m;
     ConnectionContext := ConnectionContext r; okCallbacks := okCallbacks r;
     AssumeValid := AssumeValid r |}.

Definition set_okCallbacks (r : Relay) (m : gmap string Callback) : Relay :=
  {| URL := URL r; Connection := Connection r; subscriptions := subscriptions r;
     ConnectionContext := ConnectionContext r; okCallbacks := m;
     AssumeValid := AssumeValid r |}.

Definition set_ConnectionContext (r : Relay) (c : option CtxState) : Relay :=
  {| URL := URL r; Connection := Connection r; subscriptions := subscriptions r;
     ConnectionContext := c; okCallbacks := okCallbacks r;
     AssumeValid := AssumeValid r |}.

Definition set_Connection (r : Relay) (c : option RecConn) : Relay :=
  {| URL := URL r; Connection := c; subscriptions := subscriptions r;
     ConnectionContext := ConnectionContext r; okCallbacks := okCallbacks r;
     AssumeValid := AssumeValid r |}.

(** ** Actions *)

Inductive Mutex :=
| SubMutex (subId : string)      (* subscription.mutex *)
| CallMutex (call : nat).        (* the local [mu] of Publish or Auth *)

Inductive LogLine :=
| LogPingFailed
| LogNoSubscription (subId : string)
| LogFilterMismatch (f : Filter) (ev : Event)
| LogBadSignature (errmsg : string).

(** Frames written with [WriteJSON]. *)
Inductive OutFrame :=
| FrameEVENT (ev : Event)
| FrameAUTH (ev : Event)
| FrameREQ (subId : string) (fs : list Filter)
| FrameCLOSE (subId : string).

Inductive Action :=
| GoErrors (err : string)              (* go func() { r.Errors <- err }() *)
| GoNotices (content : string)         (* go func() { r.Notices <- content }() *)
| GoChallenges (challenge : string)    (* go func() { r.Challenges <- challenge }() *)
| WriteMessage (typ : Z)               (* ws.WriteMessage(typ, nil) *)
| WriteJSON (f : OutFrame) (ok : bool) (* WriteJSON(f); ok = no error *)
| Dial (url : string)                  (* ws.Dial(url, header) *)
| GoHeartbeat                          (* the ping goroutine *)
| GoDispatcher                         (* the message-loop goroutine *)
| TickerStop                           (* ticker.Stop() *)
| Printf (l : LogLine)                 (* log.Printf *)
| Lock (m : Mutex)
| Unlock (m : Mutex)
| ReadStopped (subId : string) (b : bool)      (* if subscription.stopped *)
| SendEvent (subId : string) (ev : Event)      (* subscription.Events <- &event *)
| SendEose (subId : string)                    (* subscription.EndOfStoredEvents <- struct{}{} *)
| Call (cb : Callback) (ok : bool) (msg : string)  (* okCallback(ok, msg) *)
| Store (id : string) (cb : Callback)          (* r.okCallbacks.Store *)
| Delete (id : string)                         (* r.okCallbacks.Delete *)
| SetStatus (call : nat) (s : Status)
| SetErr (call : nat) (e : string)
| Return (call : nat) (s : Status) (e : option string)
| CancelScope (call : nat)                     (* cancel() of WithCancel *)
| CancelTimeout                                (* cancel() of WithTimeout *)
| CancelConnectionContext                      (* cancel() of Connect *)
| TableStore (subId : string)                  (* r.subscriptions.Store *)
| TableDelete (subId : string)                 (* r.subscriptions.Delete *)
| SetStopped (subId : string).

(** ** The message loop (relay.go, lines 121-243) *)

(** What [ws.ReadMessage()] returns. *)
Record ReadError := {
  Error : string;
  permanent : bool    (* the transport will not deliver another frame *)
}.

Inductive ReadResult :=
| Message (typ : Z) (message : string)
| Failed (err : ReadError).

(** How an iteration of [for { ... }] ends: at its end or by
    [continue] ([Next]), by [break] ([Leave]), or by a run-time panic. *)
Inductive Control := Next | Leave | Panic.

Definition json_string (raw : string) : string :=
  default EmptyString (Unmarshal_string raw).

Definition json_bool (raw : string) : bool :=
  default false (Unmarshal_bool raw).

(** [jsonMessage[i]], used only below a length check. *)
Definition index (jsonMessage : list string) (i : nat) : string :=
  nth i jsonMessage EmptyString.

(** [message[0] != '['] *)
Definition first_is_bracket (message : string) : bool :=
  match message with
  | String c _ => Ascii.eqb c (Ascii.ascii_of_nat 91)
  | EmptyString => false
  end.

(** The body of the closure run for an "EVENT" frame whose subscription
    was found (lines 177-207).  [defer subscription.mutex.Unlock()] runs
    at each [return] that follows the [Lock]. *)
Definition deliver (r : Relay) (subId : string) (subscription : Subscription)
    (raw : string) : list Action * Control :=
  let event := Unmarshal_Event raw in
  if negb (Match (Filters subscription) event) then
    match Filters subscription with
    | f :: _ => ([Printf (LogFilterMismatch f event)], Next)
    | [] => ([], Panic)          (* subscription.Filters[0]: index out of range *)
    end
  else
    let m := SubMutex subId in
    if stopped subscription then
      ([Lock m; ReadStopped subId true; Unlock m], Next)
    else if negb (AssumeValid r) then
      let '(ok, err) := CheckSignature event in
      if negb ok then
        let errmsg := default EmptyString err in
        ([Lock m; ReadStopped subId false; Printf (LogBadSignature errmsg); Unlock m], Next)
      else
        ([Lock m; ReadStopped subId false; SendEvent subId event; Unlock m], Next)
    else
      ([Lock m; ReadStopped subId false; SendEvent subId event; Unlock m], Next).

(** [subscription.emitEose.Do(...)] on the subscription stored under
    [subId]. *)
Definition set_emitEose (s : Subscription) : Subscription :=
  {| counter := counter s; Filters := Filters s; stopped := stopped s;
     emitEose := true; sub_Context := sub_Context s |}.

(** The [switch command] (lines 153-239). *)
Definition route (r : Relay) (command : string) (jsonMessage : list string)
    : Relay * list Action * Control :=
  if String.eqb command "NOTICE" then
    let content := json_string (index jsonMessage 1) in
    (r, [GoNotices content], Next)
  else if String.eqb command "AUTH" then
    let challenge := json_string (index jsonMessage 1) in
    (r, [GoChallenges challenge], Next)
  else if String.eqb command "EVENT" then
    if (length jsonMessage <? 3)%nat then (r, [], Next)
    else
      let subId := json_string (index jsonMessage 1) in
      match subscriptions r !! subId with
      | None => (r, [Printf (LogNoSubscription subId)], Next)
      | Some subscription =>
          let '(acts, c) := deliver r subId subscription (index jsonMessage 2) in
          (r, acts, c)
      end
  else if String.eqb command "EOSE" then
    if (length jsonMessage <? 2)%nat then (r, [], Next)
    else
      let subId := json_string (index jsonMessage 1) in
      match subscriptions r !! subId with
      | Some subscription =>
          if emitEose subscription then (r, [], Next)
          else (set_subscriptions r (<[subId := set_emitEose subscription]> (subscriptions r)),
                [SendEose subId], Next)
      | None => (r, [], Next)
      end
  else if String.eqb command "OK" then
    if (length jsonMessage <? 3)%nat then (r, [], Next)
    else
      let eventId := json_string (index jsonMessage 1) in
      let ok := json_bool (index jsonMessage 2) in
      let msg := if (3 <? length jsonMessage)%nat
                 then json_string (index jsonMessage 3) else EmptyString in
      match okCallbacks r !! eventId with
      | Some okCallback => (r, [Call okCallback ok msg], Next)
      | None => (r, [], Next)
      end
  else (r, [], Next).

(** One iteration of the loop (lines 122-240). *)
Definition loop_body (r : Relay) (rd : ReadResult) : Relay * list Action * Control :=
  match rd with
  | Failed err => (r, [GoErrors (Error err)], Next)
  | Message typ message =>
      if typ =? PingMessage then (r, [WriteMessage PongMessage], Next)
      else if negb (typ =? TextMessage) || (String.length message =? 0)%nat
              || negb (first_is_bracket message)
      then (r, [], Next)
      else
        match Unmarshal_array message with
        | None => (r, [], Next)
        | Some jsonMessage =>
            if (length jsonMessage <? 2)%nat then (r, [], Next)
            else
              let command := json_string (index jsonMessage 0) in
              route r command jsonMessage
        end
  end.

(** State of the goroutine after the reads seen so far. *)
Inductive Task :=
| Running      (* in the loop, waiting in ws.ReadMessage() *)
| Exited       (* left the loop and ran the final cancel() *)
| Crashed.     (* panicked *)

(** The goroutine of lines 121-243: the loop, then [cancel()]. *)
Fixpoint dispatcher (r : Relay) (reads : list ReadResult) : Relay * list Action * Task :=
  match reads with
  | [] => (r, [], Running)
  | rd :: reads' =>
      let '(r1, acts, c) := loop_body r rd in
      match c with
      | Next =>
          let '(r2, acts', t) := dispatcher r1 reads' in
          (r2, acts ++ acts', t)
      | Leave =>
          (set_ConnectionContext r1 (Some Canceled),
           acts ++ [CancelConnectionContext], Exited)
      | Panic => (r1, acts, Crashed)
      end
  end.

(** The body of the ping goroutine (lines 107-118): one [WriteMessage]
    per tick; a failed write ends the goroutine.  [ticks] lists, per
    tick, whether the write succeeded.  [defer ticker.Stop()] of line
    106 belongs to [Connect] and runs when [Connect] returns, long
    before the first tick of 29 seconds: in a run of the program
    [ticks] is empty and no ping is written. *)
Fixpoint heartbeat (ticks : list bool) : list Action * Task :=
  match ticks with
  | [] => ([], Running)
  | true :: ticks' =>
      let '(acts, t) := heartbeat ticks' in (WriteMessage PingMessage :: acts, t)
  | false :: _ => ([WriteMessage PingMessage; Printf LogPingFailed], Exited)
  end.

(** ** Connect (relay.go, lines 76-246)

    [established] is what the transport does with the dial: the time at
    which the websocket connection is up, if ever.  [ws.Dial] returns no
    value and takes no context. *)

Definition Connect (r : Relay) (ctx : Context) (now : Z) (established : option Z)
    : Relay * option string * list Action :=
  let r := set_ConnectionContext r (Some Live) in
  if String.eqb (URL r) EmptyString then
    (set_ConnectionContext r (Some Canceled),
     Some ("invalid relay URL '" +:+ URL r +:+ "'"),
     [CancelConnectionContext])
  else
    let '(ctx, deferred) :=
      match Deadline ctx with
      | None => (WithTimeout ctx now (7 * Second), [CancelTimeout])
      | Some _ => (ctx, [])
      end in
    let ws := {| KeepAliveTimeout := 10 * Second; RecIntvlMin := 5 * Second |} in
    let r := set_Connection r (Some ws) in
    (r, None, [Dial (URL r); GoHeartbeat; GoDispatcher; TickerStop] ++ deferred).

(** ** Subscriptions (relay.go, lines 377-387 and 417-432) *)

(** Modelled from the spec: [GetID] is missing from the sources; the
    identity is the counter "rendered as a string". *)
Definition GetID (sub : Subscription) : string := pretty (counter sub).

Definition PrepareSubscription (subscriptionIdCounter : nat) (ctx : Context)
    : Subscription * nat :=
  let current := subscriptionIdCounter in
  ({| counter := current; Filters := []; stopped := false; emitEose := false;
      sub_Context := WithCancel ctx |},
   S subscriptionIdCounter).

Definition set_Filters (s : Subscription) (fs : list Filter) : Subscription :=
  {| counter := counter s; Filters := fs; stopped := stopped s;
     emitEose := emitEose s; sub_Context := sub_Context s |}.

(** The transport's answer to each frame written with [WriteJSON]:
    [None] for success, [Some e] for the error [e]. *)
Definition Writer := OutFrame → option string.

Definition wrote (ws : Writer) (f : OutFrame) : Action :=
  WriteJSON f (bool_decide (ws f = None)).

(** Modelled from the spec: [Fire] is missing from the sources; it
    "registers the Subscription in the Relay's table under its identity,
    sends a REQ frame [REQ, id, ...filters]". *)
Definition Fire (ws : Writer) (r : Relay) (sub : Subscription) : Relay * list Action :=
  (set_subscriptions r (<[GetID sub := sub]> (subscriptions r)),
   [TableStore (GetID sub); wrote ws (FrameREQ (GetID sub) (Filters sub))]).

(** Modelled from the spec: [Unsub] is missing from the sources; it
    "sends a CLOSE frame [CLOSE, id], sets the stopped flag under lock,
    removes the table entry". *)
Definition Unsub (ws : Writer) (r : Relay) (subId : string) : Relay * list Action :=
  (set_subscriptions r (delete subId (subscriptions r)),
   [wrote ws (FrameCLOSE subId); Lock (SubMutex subId); SetStopped subId;
    Unlock (SubMutex subId); TableDelete subId]).

(** [Subscribe] panics ([None]) when [r.Connection] is nil. *)
Definition Subscribe (ws : Writer) (r : Relay) (subscriptionIdCounter : nat)
    (ctx : Context) (filters : list Filter)
    : option (Subscription * Relay * nat * list Action) :=
  match Connection r with
  | None => None
  | Some _ =>
      let '(sub, n) := PrepareSubscription subscriptionIdCounter ctx in
      let sub := set_Filters sub filters in
      let '(r', acts) := Fire ws r sub in
      Some (sub, r', n, acts)
  end.

(** ** Deferred calls

    The stack of [defer]red calls of a function, last deferred first;
    they run in that order when the function returns or panics. *)

Inductive Deferred :=
| DeferCancelTimeout
| DeferCancelScope (call : nat)
| DeferDelete (id : string)
| DeferUnsub (subId : string).

Definition run_one (ws : Writer) (d : Deferred) (r : Relay) : Relay * list Action :=
  match d with
  | DeferCancelTimeout => (r, [CancelTimeout])
  | DeferCancelScope call => (r, [CancelScope call])
  | DeferDelete id => (set_okCallbacks r (delete id (okCallbacks r)), [Delete id])
  | DeferUnsub subId => Unsub ws r subId
  end.

Fixpoint run_deferred (ws : Writer) (ds : list Deferred) (r : Relay) : Relay * list Action :=
  match ds with
  | [] => (r, [])
  | d :: ds' =>
      let '(r1, a1) := run_one ws d r in
      let '(r2, a2) := run_deferred ws ds' r1 in
      (r2, a1 ++ a2)
  end.

(** ** Waiting

    What happens while a call waits, in the order in which it happens.
    [OkReply] runs in the Dispatcher's goroutine; the others are
    channels becoming ready, received by the waiting goroutine when its
    wait has a case for them and passing unnoticed when it has none.
    Where several cases of a [select] are ready, the list says which
    one is taken.  [Received (Some e)] is the Dispatcher offering [e] on
    the unbuffered [sub.Events], with [subscription.mutex] held: it gets
    on when a [select] receives the event, and not before.  The occurrences start when the frame of the call has
    been written: a reply to a frame does not precede its writing.  In
    [Auth] they start at line 364, and the calls of the callback between
    the write and line 364 are listed apart. *)

Inductive Cause := DeadlineExceeded | CallerCanceled.

Inductive Occurrence :=
| OkReply (ok : bool) (msg : string)   (* the Dispatcher calls this call's okCallback *)
| Received (e : option Event)          (* sub.Events has [e] to receive; [None] is nil *)
| Eose                                 (* <-sub.EndOfStoredEvents *)
| CtxDone (c : Cause)                  (* <-ctx.Done(), by the deadline or by the caller *)
| ConnDone.                            (* <-r.ConnectionContext.Done() *)

(** The variables [status] and [err] of a call, shared with its
    [okCallback], and whether the callback has run [cancel()]. *)
Record Cell := {
  status : Status;
  err : option string;
  canceled : bool
}.

Record Run (A : Type) := {
  outcome : Outcome A;
  relay_after : Relay;
  counter_after : nat;
  actions : list Action;
  scope : Context          (* the context the call waits on *)
}.
Arguments outcome {A} _.
Arguments relay_after {A} _.
Arguments counter_after {A} _.
Arguments actions {A} _.
Arguments scope {A} _.

(** Leaving a function: the deferred calls run, then the caller goes on. *)
Definition leave {A} (ws : Writer) (o : Outcome A) (r : Relay) (n : nat)
    (acts : list Action) (ds : list Deferred) (sc : Context) : Run A :=
  let '(r', acts') := run_deferred ws ds r in
  {| outcome := o; relay_after := r'; counter_after := n;
     actions := acts ++ acts'; scope := sc |}.

(** ** Publish (relay.go, lines 250-317) *)

(** The closure of lines 270-280; [defer mu.Unlock()] runs last. *)
Definition Publish_okCallback (call : nat) (ok : bool) (msg : string) (c : Cell)
    : Cell * list Action :=
  let mu := CallMutex call in
  if ok then
    ({| status := PublishStatusSucceeded; err := err c; canceled := true |},
     [Lock mu; SetStatus call PublishStatusSucceeded; CancelScope call; Unlock mu])
  else
    ({| status := PublishStatusFailed; err := Some ("msg: " +:+ msg); canceled := true |},
     [Lock mu; SetStatus call PublishStatusFailed; SetErr call ("msg: " +:+ msg);
      CancelScope call; Unlock mu]).

(** The [for { select { ... } }] of lines 290-316.  At the end of the
    occurrences the goroutine is blocked in [select], unless the
    callback has cancelled the scope: then [ctx.Done()] is closed and
    its case is taken. *)
Fixpoint Publish_wait (call : nat) (id : string) (c : Cell) (occ : list Occurrence)
    : option (Status * option string) * list Action :=
  match occ with
  | [] =>
      if canceled c then (Some (status c, err c), [Return call (status c) (err c)])
      else (None, [])
  | OkReply ok msg :: occ' =>
      let '(c', a) := Publish_okCallback call ok msg c in
      let '(res, a') := Publish_wait call id c' occ' in
      (res, a ++ a')
  | Received None :: _ =>
      (Some (status c, err c), [Return call (status c) (err c)])
  | Received (Some receivedEvent) :: occ' =>
      if String.eqb (ID receivedEvent) id then
        let mu := CallMutex call in
        (Some (PublishStatusSucceeded, err c),
         [Lock mu; SetStatus call PublishStatusSucceeded; Unlock mu;
          Return call PublishStatusSucceeded (err c)])
      else Publish_wait call id c occ'
  | CtxDone _ :: _ =>
      (Some (status c, err c), [Return call (status c) (err c)])
  | ConnDone :: _ =>
      (Some (status c, err c), [Return call (status c) (err c)])
  | Eose :: occ' => Publish_wait call id c occ'
  end.

(** The scope a call waits on and the deferred cancel of lines 257-262:
    [d] seconds from [now] when the caller's context has no deadline. *)
Definition default_timeout (ctx : Context) (now d : Z) : Context * list Deferred :=
  match Deadline ctx with
  | None => (WithTimeout ctx now (d * Second), [DeferCancelTimeout])
  | Some _ => (ctx, [])
  end.

(** [call] names this invocation, [ws] answers its writes and [occ] is
    what happens while it waits.  The echo subscription is closed by
    the goroutine that [Fire] starts, once the deferred [cancel()] has
    run: after the return, not as part of the call. *)
Definition Publish (ws : Writer) (r : Relay) (subscriptionIdCounter : nat) (call : nat)
    (ctx : Context) (now : Z) (event : Event) (occ : list Occurrence)
    : Run (Status * option string) :=
  let c := {| status := PublishStatusSent; err := None; canceled := false |} in
  let '(ctx, ds) := default_timeout ctx now 3 in
  let ctx := WithCancel ctx in
  let ds := DeferCancelScope call :: ds in
  let okCallback := PublishCallback call in
  let r := set_okCallbacks r (<[ID event := okCallback]> (okCallbacks r)) in
  let ds := DeferDelete (ID event) :: ds in
  let acts := [Store (ID event) okCallback; wrote ws (FrameEVENT event)] in
  match ws (FrameEVENT event) with
  | Some e =>
      leave ws (Returned (status c, Some e)) r subscriptionIdCounter
        (acts ++ [Return call (status c) (Some e)]) ds ctx
  | None =>
      match Subscribe ws r subscriptionIdCounter ctx [Filter_IDs [ID event]] with
      | None => leave ws Panicked r subscriptionIdCounter acts ds ctx
      | Some (sub, r, n, acts_sub) =>
          match Publish_wait call (ID event) c occ with
          | (Some res, acts_wait) =>
              leave ws (Returned res) r n (acts ++ acts_sub ++ acts_wait) ds ctx
          | (None, acts_wait) =>
              {| outcome := Blocked; relay_after := r; counter_after := n;
                 actions := acts ++ acts_sub ++ acts_wait; scope := ctx |}
          end
      end
  end.

(** ** Auth (relay.go, lines 321-372) *)

(** The closure of lines 341-351. *)
Definition Auth_okCallback (call : nat) (ok : bool) (msg : string) (c : Cell)
    : Cell * list Action :=
  let mu := CallMutex call in
  if ok then
    ({| status := PublishStatusSucceeded; err := err c; canceled := true |},
     [Lock mu; SetStatus call PublishStatusSucceeded; Unlock mu; CancelScope call])
  else
    ({| status := PublishStatusFailed; err := Some ("msg: " +:+ msg); canceled := true |},
     [Lock mu; SetStatus call PublishStatusFailed; SetErr call ("msg: " +:+ msg);
      Unlock mu; CancelScope call]).

(** The calls of the callback, in order. *)
Fixpoint Auth_callbacks (call : nat) (c : Cell) (replies : list (bool * string))
    : Cell * list Action :=
  match replies with
  | [] => (c, [])
  | (ok, msg) :: replies' =>
      let '(c', a) := Auth_okCallback call ok msg c in
      let '(c'', a') := Auth_callbacks call c' replies' in
      (c'', a ++ a')
  end.

(** Lines 369-371.  Between [<-ctx.Done()] and [mu.Lock()] the
    Dispatcher may still call the callback: the occurrences end where
    the call takes [mu], and the calls among them are applied before
    the status and the error are read. *)
Fixpoint Auth_return (call : nat) (c : Cell) (occ : list Occurrence)
    : (Status * option string) * list Action :=
  let mu := CallMutex call in
  match occ with
  | [] => ((status c, err c), [Lock mu; Return call (status c) (err c); Unlock mu])
  | OkReply ok msg :: occ' =>
      let '(c', a) := Auth_okCallback call ok msg c in
      let '(res, a') := Auth_return call c' occ' in
      (res, a ++ a')
  | _ :: occ' => Auth_return call c occ'
  end.

(** [<-ctx.Done()] of line 368.  The wait has one channel: the scope,
    closed by the deadline, by the caller or by the callback's
    [cancel()]. *)
Fixpoint Auth_wait (call : nat) (c : Cell) (occ : list Occurrence)
    : option (Status * option string) * list Action :=
  if canceled c then
    let '(res, a) := Auth_return call c occ in (Some res, a)
  else
    match occ with
    | [] => (None, [])
    | OkReply ok msg :: occ' =>
        let '(c', a) := Auth_okCallback call ok msg c in
        let '(res, a') := Auth_return call c' occ' in
        (Some res, a ++ a')
    | CtxDone _ :: occ' =>
        let '(res, a) := Auth_return call c occ' in (Some res, a)
    | Received _ :: occ' => Auth_wait call c occ'
    | Eose :: occ' => Auth_wait call c occ'
    | ConnDone :: occ' => Auth_wait call c occ'
    end.

(** The callback is in the registry from line 352 on, and the status is
    set to [sent] only at lines 361-363, after the write has returned:
    [early] lists the calls of the callback that fall in between, for
    replies that arrive once the frame is out (the comment of line 360
    names the case).  Line 362 then overwrites the status they set and
    leaves their error and their [cancel()] in place. *)
Definition Auth (ws : Writer) (r : Relay) (subscriptionIdCounter : nat) (call : nat)
    (ctx : Context) (now : Z) (event : Event) (early : list (bool * string))
    (occ : list Occurrence)
    : Run (Status * option string) :=
  let c := {| status := PublishStatusFailed; err := None; canceled := false |} in
  let '(ctx, ds) := default_timeout ctx now 3 in
  let ctx := WithCancel ctx in
  let ds := DeferCancelScope call :: ds in
  let okCallback := AuthCallback call in
  let r := set_okCallbacks r (<[ID event := okCallback]> (okCallbacks r)) in
  let ds := DeferDelete (ID event) :: ds in
  let acts := [Store (ID event) okCallback; wrote ws (FrameAUTH event)] in
  match ws (FrameAUTH event) with
  | Some e =>
      leave ws (Returned (status c, Some e)) r subscriptionIdCounter
        (acts ++ [Return call (status c) (Some e)]) ds ctx
  | None =>
      let mu := CallMutex call in
      let '(c, acts_early) := Auth_callbacks call c early in
      let acts := acts ++ acts_early
                  ++ [Lock mu; SetStatus call PublishStatusSent; Unlock mu] in
      let c := {| status := PublishStatusSent; err := err c; canceled := canceled c |} in
      match Auth_wait call c occ with
      | (Some res, acts_wait) =>
          leave ws (Returned res) r subscriptionIdCounter (acts ++ acts_wait) ds ctx
      | (None, acts_wait) =>
          {| outcome := Blocked; relay_after := r; counter_after := subscriptionIdCounter;
             actions := acts ++ acts_wait; scope := ctx |}
      end
  end.

(** ** QuerySync (relay.go, lines 389-415) *)

(** The [for { select { ... } }] of lines 401-414: the events collected,
    and what happens after the occurrence that ends the loop. *)
Fixpoint QuerySync_wait (events : list Event) (occ : list Occurrence)
    : option (list Event * list Occurrence) :=
  match occ with
  | [] => None
  | Received None :: rest => Some (events, rest)
  | Received (Some evt) :: occ' => QuerySync_wait (events ++ [evt]) occ'
  | Eose :: rest => Some (events, rest)
  | CtxDone _ :: rest => Some (events, rest)
  | OkReply _ _ :: occ' => QuerySync_wait events occ'
  | ConnDone :: occ' => QuerySync_wait events occ'
  end.

(** An event offered on [sub.Events] once the loop is over.  The channel
    is unbuffered (line 429) and the loop was its only receiver: the
    Dispatcher stays in its send of line 206, holding
    [subscription.mutex] (lines 188-189). *)
Definition in_flight (rest : list Occurrence) : bool :=
  existsb (λ o, match o with Received (Some _) => true | _ => false end) rest.

(** [rest] is what happens between the end of the loop and the moment
    the deferred [Unsub] asks for [subscription.mutex].  With an event
    in flight the mutex is never released: [Unsub] has written its
    "CLOSE" frame and waits for the lock, and the call does not
    return. *)
Definition QuerySync (ws : Writer) (r : Relay) (subscriptionIdCounter : nat)
    (ctx : Context) (now : Z) (filter : Filter) (occ : list Occurrence)
    : Run (list Event) :=
  match Subscribe ws r subscriptionIdCounter ctx [filter] with
  | None =>
      {| outcome := Panicked; relay_after := r; counter_after := subscriptionIdCounter;
         actions := []; scope := ctx |}
  | Some (sub, r, n, acts) =>
      let ds := [DeferUnsub (GetID sub)] in
      let '(ctx, ds') := default_timeout ctx now 7 in
      let ds := ds' ++ ds in
      match QuerySync_wait [] occ with
      | Some (events, rest) =>
          if in_flight rest then
            {| outcome := Blocked; relay_after := r; counter_after := n;
               actions := acts ++ (run_deferred ws ds' r).2
                          ++ [wrote ws (FrameCLOSE (GetID sub))];
               scope := ctx |}
          else leave ws (Returned events) r n acts ds ctx
      | None =>
          {| outcome := Blocked; relay_after := r; counter_after := n;
             actions := acts; scope := ctx |}
      end
  end.

End Relay.

Arguments outcome {_ _} _.
Arguments relay_after {_ _} _.
Arguments counter_after {_ _} _.
Arguments actions {_ _} _.
Arguments scope {_ _} _.

(** * The vocabulary of the properties *)

Section Vocabulary.
Context `{Collaborators}.

(** ** Frames *)

(** A text frame that decodes to an array of at least [n] elements whose
    first element is the tag [command]. *)
Definition tagged (rd : ReadResult) (command : string) (n : nat) (js : list string) : Prop :=
  ∃ message, rd = Message TextMessage message
    ∧ first_is_bracket message = true
    ∧ Unmarshal_array message = Some js
    ∧ (2 ≤ length js)%nat ∧ (n ≤ length js)%nat
    ∧ json_string (index js 0) = command.

Definition known_tag (command : string) : bool :=
  existsb (String.eqb command) ["NOTICE"; "AUTH"; "EVENT"; "EOSE"; "OK"].

(** The frames of claim C7. *)
Inductive Malformed : ReadResult → Prop :=
| NonText typ message :
    typ ≠ TextMessage → Malformed (Message typ message)
| Empty typ :
    Malformed (Message typ EmptyString)
| NoBracket typ message :
    first_is_bracket message = false → Malformed (Message typ message)
| NotAnArray typ message :
    Unmarshal_array message = None → Malformed (Message typ message)
| Short typ message js :
    Unmarshal_array message = Some js → (length js < 2)%nat →
    Malformed (Message typ message)
| UnknownTag typ message js :
    Unmarshal_array message = Some js →
    known_tag (json_string (index js 0)) = false →
    Malformed (Message typ message)
| UndersizedEVENT typ message js :
    Unmarshal_array message = Some js →
    json_string (index js 0) = "EVENT" → (length js < 3)%nat →
    Malformed (Message typ message)
| UndersizedOK typ message js :
    Unmarshal_array message = Some js →
    json_string (index js 0) = "OK" → (length js < 3)%nat →
    Malformed (Message typ message)
| UndersizedEOSE typ message js :
    Unmarshal_array message = Some js →
    json_string (index js 0) = "EOSE" → (length js < 2)%nat →
    Malformed (Message typ message).

(** A ping is answered on the spot; nothing else is done for a dropped
    frame. *)
Definition answer (rd : ReadResult) : list Action :=
  match rd with
  | Message typ _ => if typ =? PingMessage then [WriteMessage PongMessage] else []
  | Failed _ => []
  end.

(** ** Deliveries *)

(** Whether every read of a stopped flag and every delivery in [acts]
    happens between a [Lock] and the [Unlock] of that subscription's
    mutex; [held] lists the subscriptions whose mutex is held. *)
Fixpoint under_mutex (held : list string) (acts : list Action) : bool :=
  match acts with
  | [] => true
  | Lock (SubMutex s) :: acts' =>
      negb (existsb (String.eqb s) held) && under_mutex (s :: held) acts'
  | Unlock (SubMutex s) :: acts' =>
      existsb (String.eqb s) held
      && under_mutex (filter (λ x, negb (String.eqb s x)) held) acts'
  | ReadStopped s _ :: acts' => existsb (String.eqb s) held && under_mutex held acts'
  | SendEvent s _ :: acts' => existsb (String.eqb s) held && under_mutex held acts'
  | _ :: acts' => under_mutex held acts'
  end.

(** When the closure of lines 177-207 delivers. *)
Definition deliverable (r : Relay) (sub : Subscription) (event : Event) : bool :=
  Match (Filters sub) event && negb (stopped sub)
  && (AssumeValid r || (CheckSignature event).1).

(** How often the end-of-stored-events signal of [subId] is sent. *)
Fixpoint eose_count (subId : string) (acts : list Action) : nat :=
  match acts with
  | [] => 0
  | SendEose s :: acts' =>
      ((if String.eqb s subId then 1 else 0) + eose_count subId acts')%nat
  | _ :: acts' => eose_count subId acts'
  end.

(** How often it can still be sent: once, while the subscription is
    registered and its [sync.Once] has not run. *)
Definition can_fire (r : Relay) (subId : string) : nat :=
  match subscriptions r !! subId with
  | Some sub => if emitEose sub then 0 else 1
  | None => 0
  end.

(** ** What the Dispatcher does, seen from a waiting call

    The call has registered [okCallback] and reads the channels of the
    subscription [subId]. *)

Definition same_callback (a b : Callback) : bool :=
  match a, b with
  | PublishCallback x, PublishCallback y => Nat.eqb x y
  | AuthCallback x, AuthCallback y => Nat.eqb x y
  | _, _ => false
  end.

Fixpoint occurrences (okCallback : Callback) (subId : string) (acts : list Action)
    : list Occurrence :=
  match acts with
  | [] => []
  | Call cb ok msg :: acts' =>
      if same_callback cb okCallback then OkReply ok msg :: occurrences okCallback subId acts'
      else occurrences okCallback subId acts'
  | SendEvent s e :: acts' =>
      if String.eqb s subId then Received (Some e) :: occurrences okCallback subId acts'
      else occurrences okCallback subId acts'
  | SendEose s :: acts' =>
      if String.eqb s subId then Eose :: occurrences okCallback subId acts'
      else occurrences okCallback subId acts'
  | _ :: acts' => occurrences okCallback subId acts'
  end.

(** ** Waiting calls *)

(** The variables of a call after the callbacks among [occ] have run. *)
Fixpoint confirmations (okCallback : bool → string → Cell → Cell * list Action)
    (c : Cell) (occ : list Occurrence) : Cell :=
  match occ with
  | [] => c
  | OkReply ok msg :: occ' => confirmations okCallback (okCallback ok msg c).1 occ'
  | _ :: occ' => confirmations okCallback c occ'
  end.

(** Occurrences after which [Publish]'s [select] is entered again: the
    callback running, an event with another identity, and the
    end-of-stored-events signal, for which it has no case. *)
Definition Publish_waits (id : string) (o : Occurrence) : bool :=
  match o with
  | OkReply _ _ => true
  | Eose => true
  | Received (Some e) => negb (String.eqb (ID e) id)
  | _ => false
  end.

Definition sent : Cell :=
  {| status := PublishStatusSent; err := None; canceled := false |}.







(** Occurrences after which [QuerySync]'s [select] is entered again: an
    event, which is collected, and those it has no case for. *)
Definition QuerySync_waits (o : Occurrence) : bool :=
  match o with
  | Received (Some _) => true
  | OkReply _ _ => true
  | ConnDone => true
  | _ => false
  end.

(** The occurrences that end [QuerySync]'s loop. *)
Definition QuerySync_ends (o : Occurrence) : bool :=
  match o with
  | Eose => true
  | CtxDone _ => true
  | Received None => true
  | _ => false
  end.

(** The events among [occ], in the order of [occ]. *)
Fixpoint arrived (occ : list Occurrence) : list Event :=
  match occ with
  | [] => []
  | Received (Some e) :: occ' => e :: arrived occ'
  | _ :: occ' => arrived occ'
  end.

End Vocabulary.

(** ** A concrete set of collaborators

    Events carry an identity and whether their signature verifies; a
    filter is a list of identities; frames are flat JSON arrays of
    strings and booleans, without escapes. *)

Module Sample.

Record SampleEvent := { sample_id : string; sample_signed : bool }.

Definition quote : Ascii.ascii := Ascii.ascii_of_nat 34.
Definition comma : Ascii.ascii := Ascii.ascii_of_nat 44.
Definition lbracket : Ascii.ascii := Ascii.ascii_of_nat 91.
Definition rbracket : Ascii.ascii := Ascii.ascii_of_nat 93.

(** Encoding. *)
Definition q (s : string) : string := String quote (s +:+ String quote EmptyString).

Fixpoint join (items : list string) : string :=
  match items with
  | [] => EmptyString
  | [x] => x
  | x :: rest => x +:+ String comma (join rest)
  end.

Definition arr (items : list string) : string :=
  String lbracket (join items +:+ String rbracket EmptyString).

Definition enc_bool (b : bool) : string := if b then "true" else "false".

Definition enc_event (e : SampleEvent) : string :=
  arr [q (sample_id e); enc_bool (sample_signed e)].

(** Decoding: split the text between the outer brackets at the commas
    that lie outside strings and nested arrays. *)
Fixpoint split (s : string) (depth : nat) (in_str : bool) (cur : string)
    (acc : list string) : option (list string) :=
  match s with
  | EmptyString => None
  | String c rest =>
      if in_str then
        split rest depth (negb (Ascii.eqb c quote)) (cur +:+ String c EmptyString) acc
      else if Ascii.eqb c quote then split rest depth true (cur +:+ String c EmptyString) acc
      else if Ascii.eqb c lbracket then split rest (S depth) false (cur +:+ String c EmptyString) acc
      else if Ascii.eqb c rbracket then
        match depth with
        | O => match rest with
               | EmptyString =>
                   Some (match cur, acc with
                         | EmptyString, [] => []
                         | _, _ => acc ++ [cur]
                         end)
               | _ => None
               end
        | S d => split rest d false (cur +:+ String c EmptyString) acc
        end
      else if Ascii.eqb c comma then
        match depth with
        | O => split rest depth false EmptyString (acc ++ [cur])
        | S _ => split rest depth false (cur +:+ String c EmptyString) acc
        end
      else split rest depth false (cur +:+ String c EmptyString) acc
  end.

Definition dec_array (s : string) : option (list string) :=
  match s with
  | String c rest => if Ascii.eqb c lbracket then split rest 0 false EmptyString [] else None
  | EmptyString => None
  end.

Fixpoint until_quote (s : string) : option string :=
  match s with
  | EmptyString => None
  | String c rest =>
      if Ascii.eqb c quote then
        match rest with EmptyString => Some EmptyString | _ => None end
      else option_map (String c) (until_quote rest)
  end.

Definition dec_string (s : string) : option string :=
  match s with
  | String c rest => if Ascii.eqb c quote then until_quote rest else None
  | EmptyString => None
  end.

Definition dec_bool (s : string) : option bool :=
  if String.eqb s "true" then Some true
  else if String.eqb s "false" then Some false
  else None.

Definition dec_event (s : string) : SampleEvent :=
  match dec_array s with
  | Some [i; b] =>
      {| sample_id := default EmptyString (dec_string i);
         sample_signed := default false (dec_bool b) |}
  | _ => {| sample_id := EmptyString; sample_signed := false |}
  end.

Definition check (e : SampleEvent) : bool * option string :=
  if sample_signed e then (true, None) else (false, Some "signature is invalid").

Definition matches (fs : list (list string)) (e : SampleEvent) : bool :=
  existsb (existsb (String.eqb (sample_id e))) fs.

#[export] Instance collaborators : Collaborators := {|
  Event := SampleEvent;
  ID := sample_id;
  CheckSignature := check;
  Filter := list string;
  Filter_IDs := λ ids, ids;
  Match := matches;
  Unmarshal_array := dec_array;
  Unmarshal_string := dec_string;
  Unmarshal_bool := dec_bool;
  Unmarshal_Event := dec_event
|}.

Definition relay : Relay :=
  {| URL := "wss://relay.example";
     Connection := Some {| KeepAliveTimeout := 10 * Second; RecIntvlMin := 5 * Second |};
     subscriptions := ∅;
     ConnectionContext := Some Live;
     okCallbacks := ∅;
     AssumeValid := false |}.

Definition subscription (n : nat) (ids : list string) : Subscription :=
  {| counter := n; Filters := [ids]; stopped := false; emitEose := false;
     sub_Context := {| Deadline := None |} |}.

Definition subscribed : Relay :=
  set_subscriptions relay {[ "7" := subscription 7 ["e1"] ]}.

Definition e1 : SampleEvent := {| sample_id := "e1"; sample_signed := true |}.
Definition e2 : SampleEvent := {| sample_id := "e2"; sample_signed := true |}.

Definition always_writes : Writer := λ _, None.
Definition never_writes : Writer := λ _, Some "websocket: not connected".

Definition no_deadline : Context := {| Deadline := None |}.

(** A relay on which an [Auth] for [e1] is waiting. *)
Definition waiting : Relay := set_okCallbacks subscribed {[ "e1" := AuthCallback 4 ]}.

(** Reads. *)
Definition closed : ReadError :=
  {| Error := "websocket: close 1006 (abnormal closure)"; permanent := true |}.

Definition frame_EOSE (subId : string) : ReadResult :=
  Message TextMessage (arr [q "EOSE"; q subId]).
Definition frame_EVENT (subId : string) (e : SampleEvent) : ReadResult :=
  Message TextMessage (arr [q "EVENT"; q subId; enc_event e]).
Definition frame_OK (ok : bool) (msg : string) : ReadResult :=
  Message TextMessage (arr [q "OK"; q "e1"; enc_bool ok; q msg]).
Definition frame_PING : ReadResult := Message TextMessage (arr [q "PING"; q "x"]).

End Sample.

(** * The rest of relay.go *)

Section Rest.
Context `{Collaborators}.

(** ** RelayConnect (relay.go, lines 62-66)

    [NormalizeURL] is not part of relay.go; it is a parameter.  The
    struct literal leaves every other field at its zero value. *)

Definition zero_Relay : Relay :=
  {| URL := EmptyString; Connection := None; subscriptions := ∅;
     ConnectionContext := None; okCallbacks := ∅; AssumeValid := false |}.

Definition set_URL (r : Relay) (url : string) : Relay :=
  {| URL := url; Connection := Connection r; subscriptions := subscriptions r;
     ConnectionContext := ConnectionContext r; okCallbacks := okCallbacks r;
     AssumeValid := AssumeValid r |}.

Definition RelayConnect (NormalizeURL : string → string) (ctx : Context) (now : Z)
    (established : option Z) (url : string) : Relay * option string * list Action :=
  let r := set_URL zero_Relay (NormalizeURL url) in
  Connect r ctx now established.

(** [String] (lines 68-70). *)
Definition Relay_String (r : Relay) : string := URL r.

(** ** Counting and comparing *)

(** The pings among the reads and the pongs among the actions. *)
Fixpoint pings (reads : list ReadResult) : nat :=
  match reads with
  | [] => 0
  | Message typ _ :: reads' =>
      ((if (typ =? PingMessage)%Z then 1 else 0) + pings reads')%nat
  | Failed _ :: reads' => pings reads'
  end.

Fixpoint pongs (acts : list Action) : nat :=
  match acts with
  | [] => 0
  | WriteMessage typ :: acts' =>
      ((if (typ =? PongMessage)%Z then 1 else 0) + pongs acts')%nat
  | _ :: acts' => pongs acts'
  end.

(** A "NOTICE" or "AUTH" frame and the send it leads to. *)
Definition broadcast (rd : ReadResult) (a : Action) : Prop :=
  (∃ js, tagged rd "NOTICE" 2 js ∧ a = GoNotices (json_string (index js 1)))
  ∨ (∃ js, tagged rd "AUTH" 2 js ∧ a = GoChallenges (json_string (index js 1))).

(** Every registered subscription has at least one filter. *)
Definition has_filters (r : Relay) : Prop :=
  ∀ subId sub, subscriptions r !! subId = Some sub → Filters sub ≠ [].

(** Two states of one subscription: nothing differs but, at most, the
    [sync.Once] having run. *)
Definition later_state (sub sub' : Subscription) : Prop :=
  counter sub' = counter sub ∧ Filters sub' = Filters sub
  ∧ stopped sub' = stopped sub ∧ sub_Context sub' = sub_Context sub
  ∧ (emitEose sub = true → emitEose sub' = true).

(** The frames written with [WriteJSON] among the actions. *)
Fixpoint written (acts : list Action) : list OutFrame :=
  match acts with
  | [] => []
  | WriteJSON f _ :: acts' => f :: written acts'
  | _ :: acts' => written acts'
  end.

(** The deferred [cancel()] calls of [Publish] and [Auth], in the order
    in which they run. *)
Definition cancels (call : nat) (ctx : Context) : list Action :=
  CancelScope call :: match Deadline ctx with None => [CancelTimeout] | Some _ => [] end.

End Rest.

(** ** More concrete inputs *)

Module Cases.
Import Sample.

Definition frame_NOTICE (text : string) : ReadResult :=
  Message TextMessage (arr [q "NOTICE"; q text]).
Definition frame_AUTH (challenge : string) : ReadResult :=
  Message TextMessage (arr [q "AUTH"; q challenge]).

(** An acknowledgement without message. *)
Definition frame_OK3 : ReadResult :=
  Message TextMessage (arr [q "OK"; q "e1"; enc_bool true]).

(** A ping whose payload looks like an "EOSE" frame. *)
Definition ping : ReadResult := Message PingMessage (arr [q "EOSE"; q "7"]).

(** A relay with a subscription that has no filter. *)
Definition unfiltered : Relay :=
  set_subscriptions relay
    {[ "7" := {| counter := 7; Filters := []; stopped := false; emitEose := false;
                 sub_Context := no_deadline |} ]}.

End Cases.

(** * Properties *)

Section Dispatcher.
Context `{Collaborators}.

Implicit Types (r : Relay) (rd : ReadResult) (reads : list ReadResult).

(** ** The loop has no way out *)

Lemma deliver_control r subId sub raw : (deliver r subId sub raw).2 ≠ Leave.
Proof.
  unfold deliver. repeat case_match; simpl; congruence.
Qed.

Lemma deliver_actions r subId sub raw a :
  a ∈ (deliver r subId sub raw).1 →
  (∃ l, a = Printf l) ∨ a = Lock (SubMutex subId) ∨ a = Unlock (SubMutex subId)
  ∨ (∃ b, a = ReadStopped subId b) ∨ a = SendEvent subId (Unmarshal_Event raw).
Proof.
  unfold deliver. repeat case_match; simpl; intros Ha;
    repeat (apply elem_of_cons in Ha as [-> | Ha]); try (by apply elem_of_nil in Ha);
    eauto 10.
Qed.

Lemma route_control r command js : (route r command js).2 ≠ Leave.
Proof.
  unfold route. repeat case_match; simpl; try congruence.
  pose proof (deliver_control r (json_string (index js 1)) s (index js 2)) as Hd.
  match goal with Hx : deliver _ _ _ _ = _ |- _ => rewrite Hx in Hd end. exact Hd.
Qed.

Lemma loop_body_control r rd : (loop_body r rd).2 ≠ Leave.
Proof.
  unfold loop_body. repeat case_match; simpl; try congruence.
  apply route_control.
Qed.

(** The tables change in one place: the [sync.Once] of an "EOSE". *)
Lemma route_relay r command js :
  (route r command js).1.1 = r
  ∨ ∃ subId sub, subscriptions r !! subId = Some sub ∧ emitEose sub = false
      ∧ (route r command js).1.1
        = set_subscriptions r (<[subId := set_emitEose sub]> (subscriptions r)).
Proof.
  unfold route. repeat case_match; simpl; eauto 10.
Qed.

Lemma loop_body_relay r rd :
  (loop_body r rd).1.1 = r
  ∨ ∃ subId sub, subscriptions r !! subId = Some sub ∧ emitEose sub = false
      ∧ (loop_body r rd).1.1
        = set_subscriptions r (<[subId := set_emitEose sub]> (subscriptions r)).
Proof.
  unfold loop_body. repeat case_match; simpl; eauto using route_relay.
Qed.

Lemma loop_body_keeps r rd :
  ConnectionContext (loop_body r rd).1.1 = ConnectionContext r
  ∧ okCallbacks (loop_body r rd).1.1 = okCallbacks r
  ∧ Connection (loop_body r rd).1.1 = Connection r
  ∧ AssumeValid (loop_body r rd).1.1 = AssumeValid r
  ∧ URL (loop_body r rd).1.1 = URL r.
Proof.
  destruct (loop_body_relay r rd) as [-> | (subId & sub & _ & _ & ->)]; done.
Qed.

Lemma dispatcher_cons r rd reads :
  dispatcher r (rd :: reads) =
    match (loop_body r rd).2 with
    | Next =>
        ((dispatcher (loop_body r rd).1.1 reads).1.1,
         (loop_body r rd).1.2 ++ (dispatcher (loop_body r rd).1.1 reads).1.2,
         (dispatcher (loop_body r rd).1.1 reads).2)
    | Leave =>
        (set_ConnectionContext (loop_body r rd).1.1 (Some Canceled),
         (loop_body r rd).1.2 ++ [CancelConnectionContext], Exited)
    | Panic => ((loop_body r rd).1.1, (loop_body r rd).1.2, Crashed)
    end.
Proof.
  simpl. destruct (loop_body r rd) as [[r1 a1] c]. simpl.
  destruct c; try done.
  by destruct (dispatcher r1 reads) as [[r2 a2] t].
Qed.

(** The loop itself does not cancel the connection context. *)
Lemma deliver_no_cancel r subId sub raw :
  CancelConnectionContext ∉ (deliver r subId sub raw).1.
Proof.
  intros Hin. apply deliver_actions in Hin.
  destruct Hin as [[? ?]|[?|[?|[[? ?]|?]]]]; done.
Qed.

Lemma route_no_cancel r command js :
  CancelConnectionContext ∉ (route r command js).1.2.
Proof.
  unfold route.
  repeat case_match; simpl; try apply not_elem_of_nil;
    try (by intros [?|?%elem_of_nil]%elem_of_cons).
  pose proof (deliver_no_cancel r (json_string (index js 1)) s (index js 2)) as Hd.
  match goal with Hx : deliver _ _ _ _ = _ |- _ => by rewrite Hx in Hd end.
Qed.

Lemma loop_body_no_cancel r rd :
  CancelConnectionContext ∉ (loop_body r rd).1.2.
Proof.
  unfold loop_body.
  repeat case_match; simpl; try apply not_elem_of_nil;
    try (by intros [?|?%elem_of_nil]%elem_of_cons).
  apply route_no_cancel.
Qed.

(** The goroutine never reaches the [cancel()] that follows the loop:
    whatever it reads, it is still in the loop (or has panicked) and the
    connection context is as it was. *)
Lemma dispatcher_never_exits r reads :
  (dispatcher r reads).2 ≠ Exited
  ∧ ConnectionContext (dispatcher r reads).1.1 = ConnectionContext r
  ∧ CancelConnectionContext ∉ (dispatcher r reads).1.2.
Proof.
  revert r. induction reads as [|rd reads IH]; intros r.
  - simpl. split_and!; [done | done | apply not_elem_of_nil].
  - rewrite dispatcher_cons.
    pose proof (loop_body_control r rd) as Hc.
    pose proof (loop_body_no_cancel r rd) as Hn.
    pose proof (loop_body_keeps r rd) as (Hk & _).
    destruct ((loop_body r rd).2); try done; simpl.
    destruct (IH (loop_body r rd).1.1) as (IH1 & IH2 & IH3).
    split_and!; [done | congruence |].
    rewrite elem_of_app. by intros [Hin | Hin].
Qed.

(** ** Read failures *)

(** A failed read is handed to the errors channel and the loop goes on
    with the next read. *)
Lemma read_failure_is_surfaced r err reads :
  loop_body r (Failed err) = (r, [GoErrors (Error err)], Next)
  ∧ dispatcher r (Failed err :: reads)
    = ((dispatcher r reads).1.1, GoErrors (Error err) :: (dispatcher r reads).1.2,
       (dispatcher r reads).2).
Proof.
  split; [done |]. by rewrite dispatcher_cons.
Qed.

(** C1 (the code departs from the claim).  A read failure by which the
    transport signals permanent closure is treated like any other: the
    error goes to the errors channel, the goroutine stays in its loop,
    it does not exit, and the connection context is not cancelled,
    however many reads follow. *)
Theorem permanent_closure_does_not_end_the_dispatcher r e reads :
  let closed := Failed {| Error := e; permanent := true |} in
  loop_body r closed = (r, [GoErrors e], Next)
  ∧ (dispatcher r (closed :: reads)).1.2 = GoErrors e :: (dispatcher r reads).1.2
  ∧ (dispatcher r (closed :: reads)).2 ≠ Exited
  ∧ ConnectionContext (dispatcher r (closed :: reads)).1.1 = ConnectionContext r
  ∧ CancelConnectionContext ∉ (dispatcher r (closed :: reads)).1.2.
Proof.
  intros closed.
  destruct (read_failure_is_surfaced r {| Error := e; permanent := true |} reads)
    as [Hb Hd].
  destruct (dispatcher_never_exits r (closed :: reads)) as (H1 & H2 & H3).
  split_and!; try done.
  unfold closed. by rewrite Hd.
Qed.

(** ** Frames that are dropped *)

Lemma route_unknown r command js :
  known_tag command = false → route r command js = (r, [], Next).
Proof.
  unfold known_tag, route. simpl.
  repeat (destruct (String.eqb command _); [done |]). done.
Qed.

Lemma route_undersized r command js :
  (length js < 3)%nat → command = "EVENT" ∨ command = "OK" →
  route r command js = (r, [], Next).
Proof.
  intros Hlen [-> | ->]; unfold route; simpl;
    (destruct (length js <? 3)%nat eqn:E; [done | apply Nat.ltb_ge in E; lia]).
Qed.

Lemma loop_body_malformed r rd :
  Malformed rd → loop_body r rd = (r, answer rd, Next).
Proof.
  intros Hm. unfold loop_body, answer.
  destruct Hm as [typ message Hty | typ | typ message Hb | typ message Hu
                 | typ message js Hu Hl | typ message js Hu Hk
                 | typ message js Hu Hc Hl | typ message js Hu Hc Hl
                 | typ message js Hu Hc Hl];
    destruct (typ =? PingMessage); try done.
  - destruct (typ =? TextMessage) eqn:E; [apply Z.eqb_eq in E; done | done].
  - by rewrite orb_true_r.
  - rewrite Hb. simpl. by rewrite orb_true_r.
  - rewrite Hu. by repeat case_match.
  - rewrite Hu. apply Nat.ltb_lt in Hl. rewrite Hl. by repeat case_match.
  - rewrite Hu. rewrite route_unknown by done. by repeat case_match.
  - rewrite Hu, Hc, route_undersized by eauto. by repeat case_match.
  - rewrite Hu, Hc, route_undersized by eauto. by repeat case_match.
  - rewrite Hu. assert ((length js <? 2)%nat = true) as -> by (apply Nat.ltb_lt; lia).
    by repeat case_match.
Qed.

(** C7.  A malformed frame is dropped: the relay, and with it the
    subscription table and the confirmation registry, is unchanged,
    nothing is sent to the errors channel (the only action is the pong
    that answers a ping), the loop takes its next iteration, and the
    goroutine processes the reads that follow as if the frame had not
    been there. *)
Theorem malformed_frames_are_dropped r rd reads :
  Malformed rd →
  loop_body r rd = (r, answer rd, Next)
  ∧ subscriptions (loop_body r rd).1.1 = subscriptions r
  ∧ okCallbacks (loop_body r rd).1.1 = okCallbacks r
  ∧ (∀ e, GoErrors e ∉ (loop_body r rd).1.2)
  ∧ dispatcher r (rd :: reads)
    = ((dispatcher r reads).1.1, answer rd ++ (dispatcher r reads).1.2,
       (dispatcher r reads).2).
Proof.
  intros Hm. pose proof (loop_body_malformed r rd Hm) as Hb.
  rewrite dispatcher_cons, Hb. simpl. split_and!; try done.
  intros e. unfold answer. destruct rd as [typ message | err].
  - destruct (typ =? PingMessage).
    + by intros [?|?%elem_of_nil]%elem_of_cons.
    + apply not_elem_of_nil.
  - apply not_elem_of_nil.
Qed.

(** ** "EVENT" frames *)

Lemma loop_body_tagged r rd command n js :
  tagged rd command n js → loop_body r rd = route r command js.
Proof.
  intros (message & -> & Hb & Hu & H2 & _ & <-). unfold loop_body.
  change (TextMessage =? PingMessage) with false.
  change (TextMessage =? TextMessage) with true. rewrite Hb, Hu. simpl.
  destruct message; [done |]. simpl.
  destruct (length js <? 2)%nat eqn:E; [apply Nat.ltb_lt in E; lia | done].
Qed.

Lemma deliver_spec r subId sub raw :
  let event := Unmarshal_Event raw in
  (if deliverable r sub event
   then deliver r subId sub raw
        = ([Lock (SubMutex subId); ReadStopped subId false;
            SendEvent subId event; Unlock (SubMutex subId)], Next)
   else ∀ s e, SendEvent s e ∉ (deliver r subId sub raw).1)
  ∧ under_mutex [] (deliver r subId sub raw).1 = true.
Proof.
  intros event. unfold deliverable, deliver. fold event.
  destruct (Match (Filters sub) event); simpl.
  - destruct (stopped sub); simpl.
    + rewrite String.eqb_refl. simpl. split; [| done]. intros s e Hin.
      repeat (apply elem_of_cons in Hin as [Hin | Hin]; [done |]).
      by apply elem_of_nil in Hin.
    + destruct (AssumeValid r); simpl.
      * by rewrite String.eqb_refl.
      * destruct (CheckSignature event) as [ok e']. simpl.
        destruct ok; simpl; rewrite String.eqb_refl; simpl; [done |].
        split; [| done]. intros s e Hin.
        repeat (apply elem_of_cons in Hin as [Hin | Hin]; [done |]).
        by apply elem_of_nil in Hin.
  - destruct (Filters sub); simpl; (split; [| done]); intros s e Hin.
    + by apply elem_of_nil in Hin.
    + apply elem_of_cons in Hin as [Hin | Hin]; [done |].
      by apply elem_of_nil in Hin.
Qed.

(** C5.  For an "EVENT" frame carrying the subscription identity [subId]
    and the payload [raw]: the tables are unchanged; when no
    subscription is registered under [subId] the frame is logged and
    dropped, without delivery and without panic; when one is, the
    decoded event is sent to its [Events] channel exactly when it
    matches the filters, the subscription is not stopped and (the relay
    is [AssumeValid] or the signature verifies), nothing else is ever
    sent to an [Events] channel, and the read of [stopped] and the send
    happen between the [Lock] and the [Unlock] of the subscription's
    mutex. *)
Theorem EVENT_frame_delivery r rd js :
  tagged rd "EVENT" 3 js →
  let subId := json_string (index js 1) in
  let event := Unmarshal_Event (index js 2) in
  (loop_body r rd).1.1 = r
  ∧ under_mutex [] (loop_body r rd).1.2 = true
  ∧ match subscriptions r !! subId with
    | None =>
        loop_body r rd = (r, [Printf (LogNoSubscription subId)], Next)
    | Some sub =>
        (∀ s e, SendEvent s e ∈ (loop_body r rd).1.2 →
           s = subId ∧ e = event
           ∧ Match (Filters sub) event = true ∧ stopped sub = false
           ∧ (AssumeValid r = true ∨ (CheckSignature event).1 = true))
        ∧ (Match (Filters sub) event = true → stopped sub = false →
           AssumeValid r = true ∨ (CheckSignature event).1 = true →
           loop_body r rd
           = (r, [Lock (SubMutex subId); ReadStopped subId false;
                  SendEvent subId event; Unlock (SubMutex subId)], Next))
    end.
Proof.
  intros Ht subId event.
  rewrite (loop_body_tagged r rd "EVENT" 3 js Ht).
  destruct Ht as (message & _ & _ & _ & _ & H3 & _).
  unfold route. simpl.
  destruct (length js <? 3)%nat eqn:E; [apply Nat.ltb_lt in E; lia |].
  fold subId. destruct (subscriptions r !! subId) as [sub|] eqn:Hs; [| done].
  destruct (deliver_spec r subId sub (index js 2)) as [Hd Hm]. fold event in Hd.
  destruct (deliver r subId sub (index js 2)) as [acts c] eqn:Ed. simpl in *.
  split_and!; [done | done | |].
  - intros s e Hin. unfold deliverable in Hd.
    destruct (Match (Filters sub) event); simpl in Hd;
      [| by apply Hd in Hin].
    destruct (stopped sub); simpl in Hd; [by apply Hd in Hin |].
    destruct (AssumeValid r); simpl in Hd.
    + injection Hd as -> ->.
      repeat (apply elem_of_cons in Hin as [Hin | Hin]; try done).
      * injection Hin as -> ->. split_and!; auto.
      * by apply elem_of_nil in Hin.
    + destruct ((CheckSignature event).1); [| by apply Hd in Hin].
      injection Hd as -> ->.
      repeat (apply elem_of_cons in Hin as [Hin | Hin]; try done).
      * injection Hin as -> ->. split_and!; auto.
      * by apply elem_of_nil in Hin.
  - intros Hmatch Hst Hsig. unfold deliverable in Hd.
    rewrite Hmatch, Hst in Hd. simpl in Hd.
    destruct Hsig as [Hsig | Hsig]; rewrite Hsig in Hd; simpl in Hd;
      [| rewrite orb_true_r in Hd]; by injection Hd as -> ->.
Qed.

(** ** "EOSE" frames *)

Lemma eose_count_app subId a b :
  eose_count subId (a ++ b) = (eose_count subId a + eose_count subId b)%nat.
Proof.
  induction a as [|x a IH]; [done |]. destruct x; simpl; rewrite ?IH; lia.
Qed.

Lemma deliver_eose_count r s sub raw subId :
  eose_count subId (deliver r s sub raw).1 = 0%nat.
Proof. unfold deliver. by repeat case_match. Qed.

Lemma route_EOSE r js :
  (2 ≤ length js)%nat →
  let subId := json_string (index js 1) in
  route r "EOSE" js =
    match subscriptions r !! subId with
    | Some sub =>
        if emitEose sub then (r, [], Next)
        else (set_subscriptions r (<[subId := set_emitEose sub]> (subscriptions r)),
              [SendEose subId], Next)
    | None => (r, [], Next)
    end.
Proof.
  intros Hl subId. unfold route. simpl.
  destruct (length js <? 2)%nat eqn:E; [apply Nat.ltb_lt in E; lia | done].
Qed.

Lemma route_budget r command js subId :
  (eose_count subId (route r command js).1.2 + can_fire (route r command js).1.1 subId
   = can_fire r subId)%nat.
Proof.
  unfold route.
  repeat (case_match; simpl; try done).
  - pose proof (deliver_eose_count r (json_string (index js 1)) s (index js 2) subId) as Hd.
    match goal with Hx : deliver _ _ _ _ = _ |- _ => rewrite Hx in Hd end.
    simpl in Hd. by rewrite Hd.
  - match goal with Hx : String.eqb _ subId = true |- _ => apply String.eqb_eq in Hx; subst subId end.
    unfold can_fire. simpl. rewrite lookup_insert_eq. simpl.
    match goal with Hx : subscriptions r !! _ = Some _ |- _ => rewrite Hx end.
    match goal with Hx : emitEose _ = false |- _ => by rewrite Hx end.
  - match goal with Hx : String.eqb _ subId = false |- _ => apply String.eqb_neq in Hx end.
    unfold can_fire. simpl. by rewrite lookup_insert_ne.
Qed.

Lemma loop_body_budget r rd subId :
  (eose_count subId (loop_body r rd).1.2 + can_fire (loop_body r rd).1.1 subId
   = can_fire r subId)%nat.
Proof.
  unfold loop_body.
  repeat (case_match; simpl; try done).
  apply route_budget.
Qed.

Lemma dispatcher_budget r reads subId :
  (eose_count subId (dispatcher r reads).1.2 + can_fire (dispatcher r reads).1.1 subId
   = can_fire r subId)%nat.
Proof.
  revert r. induction reads as [|rd reads IH]; intros r; [done |].
  rewrite dispatcher_cons.
  pose proof (loop_body_budget r rd subId) as Hb.
  destruct ((loop_body r rd).2); simpl.
  - rewrite eose_count_app. specialize (IH (loop_body r rd).1.1). lia.
  - rewrite eose_count_app. simpl. unfold can_fire in *. simpl. lia.
  - done.
Qed.

(** C6.  Whatever the goroutine reads, the end-of-stored-events signal
    of a subscription is sent at most once; after one "EOSE" frame for
    [subId], a second one changes nothing and does nothing; and two
    "EOSE" frames for a registered subscription whose signal has not
    been sent yet send it exactly once. *)
Theorem EOSE_fires_once r rd1 rd2 js1 js2 subId :
  tagged rd1 "EOSE" 2 js1 → json_string (index js1 1) = subId →
  tagged rd2 "EOSE" 2 js2 → json_string (index js2 1) = subId →
  (∀ r' reads, (eose_count subId (dispatcher r' reads).1.2 ≤ 1)%nat)
  ∧ loop_body (loop_body r rd1).1.1 rd2 = ((loop_body r rd1).1.1, [], Next)
  ∧ (∀ sub, subscriptions r !! subId = Some sub → emitEose sub = false →
       (dispatcher r [rd1; rd2]).1.2 = [SendEose subId]
       ∧ eose_count subId (dispatcher r [rd1; rd2]).1.2 = 1%nat).
Proof.
  intros Ht1 Hs1 Ht2 Hs2.
  assert (2 ≤ length js1)%nat as Hl1 by (destruct Ht1 as (? & ? & ? & ? & ? & ? & ?); done).
  assert (2 ≤ length js2)%nat as Hl2 by (destruct Ht2 as (? & ? & ? & ? & ? & ? & ?); done).
  assert (∀ r0, loop_body r0 rd1 = route r0 "EOSE" js1) as E1
    by (intros; by eapply loop_body_tagged).
  assert (∀ r0, loop_body r0 rd2 = route r0 "EOSE" js2) as E2
    by (intros; by eapply loop_body_tagged).
  split_and!.
  - intros r' reads. pose proof (dispatcher_budget r' reads subId) as Hb.
    unfold can_fire in Hb at 2. repeat case_match; lia.
  - rewrite E1, E2, !route_EOSE by done. simpl. rewrite Hs1, Hs2.
    destruct (subscriptions r !! subId) as [sub|] eqn:Hsub; simpl.
    + destruct (emitEose sub) eqn:He; simpl.
      * by rewrite Hsub, He.
      * by rewrite lookup_insert_eq.
    + by rewrite Hsub.
  - intros sub Hsub He.
    assert ((dispatcher r [rd1; rd2]).1.2 = [SendEose subId]) as Hd.
    { rewrite !dispatcher_cons. rewrite E1, !route_EOSE by done. simpl.
      rewrite Hs1, Hsub, He. simpl.
      rewrite E2, !route_EOSE by done. simpl.
      rewrite Hs2, lookup_insert_eq. by simpl. }
    split; [done |]. rewrite Hd. simpl. by rewrite String.eqb_refl.
Qed.

End Dispatcher.

Section Calls.
Context `{Collaborators}.

Implicit Types (r : Relay) (ws : Writer) (ctx : Context) (c : Cell)
  (occ pre post : list Occurrence).

(** ** Connect *)

Lemma Connect_empty_URL r ctx now established :
  URL r = EmptyString →
  Connect r ctx now established
  = (set_ConnectionContext r (Some Canceled), Some "invalid relay URL ''",
     [CancelConnectionContext]).
Proof.
  intros HU. unfold Connect. simpl. by rewrite HU.
Qed.

Lemma Connect_returns_nil r ctx now established :
  URL r ≠ EmptyString →
  (Connect r ctx now established).1.2 = None
  ∧ Dial (URL r) ∈ (Connect r ctx now established).2.
Proof.
  intros HU. unfold Connect. simpl.
  destruct (String.eqb (URL r) EmptyString) eqn:E; [by apply String.eqb_eq in E |].
  unfold WithTimeout. destruct (Deadline ctx); simpl; (split; [done | apply list_elem_of_here]).
Qed.

(** C8 (the code departs from the claim).  The error [Connect] returns
    is decided by the URL alone: an empty URL is refused before any
    dial; for any other URL the result is nil, whatever the deadline of
    the caller's context and whether or when the transport establishes
    the connection. *)
Theorem Connect_error_is_decided_by_the_URL r ctx now established :
  (Connect r ctx now established).1.2
  = (if String.eqb (URL r) EmptyString then Some "invalid relay URL ''" else None)
  ∧ (URL r = EmptyString → ∀ url, Dial url ∉ (Connect r ctx now established).2).
Proof.
  split.
  - destruct (String.eqb (URL r) EmptyString) eqn:E.
    + apply String.eqb_eq in E. by rewrite Connect_empty_URL.
    + apply String.eqb_neq in E. by apply Connect_returns_nil.
  - intros HU url. rewrite Connect_empty_URL by done. simpl.
    by intros [?|?%elem_of_nil]%elem_of_cons.
Qed.

(** ** Leaving a call *)

Lemma run_deferred_okCallbacks ws ds r :
  okCallbacks (run_deferred ws ds r).1
  = foldr (λ d m, match d with DeferDelete id => delete id m | _ => m end)
      (okCallbacks r) (reverse ds).
Proof.
  revert r. induction ds as [|d ds IH]; intros r; [done |].
  simpl. destruct (run_one ws d r) as [r1 a1] eqn:E1.
  destruct (run_deferred ws ds r1) as [r2 a2] eqn:E2. simpl.
  rewrite reverse_cons, foldr_app. simpl.
  specialize (IH r1). rewrite E2 in IH. simpl in IH. rewrite IH.
  f_equal. destruct d; simpl in E1; by injection E1 as <- <-.
Qed.

Lemma leave_outcome {A} ws (o : Outcome A) r n acts ds sc :
  outcome (leave ws o r n acts ds sc) = o ∧ scope (leave ws o r n acts ds sc) = sc
  ∧ relay_after (leave ws o r n acts ds sc) = (run_deferred ws ds r).1
  ∧ actions (leave ws o r n acts ds sc) = acts ++ (run_deferred ws ds r).2.
Proof.
  unfold leave. by destruct (run_deferred ws ds r).
Qed.

(** ** Publish *)

Lemma confirmations_none okCallback c occ :
  (∀ ok msg, OkReply ok msg ∉ occ) → confirmations okCallback c occ = c.
Proof.
  induction occ as [|o occ IH]; intros Hno; [done |].
  assert (∀ ok msg, OkReply ok msg ∉ occ) as Hno'
    by (intros ok msg Hin; apply (Hno ok msg); by apply list_elem_of_further).
  destruct o; simpl; auto.
  exfalso. eapply Hno. apply list_elem_of_here.
Qed.

Lemma confirmations_app okCallback c occ occ' :
  confirmations okCallback c (occ ++ occ')
  = confirmations okCallback (confirmations okCallback c occ) occ'.
Proof.
  revert c. induction occ as [|o occ IH]; intros c; [done |].
  destruct o; simpl; auto.
Qed.

Lemma Publish_wait_app call id c pre occ :
  forallb (Publish_waits id) pre = true →
  (Publish_wait call id c (pre ++ occ)).1
  = (Publish_wait call id (confirmations (Publish_okCallback call) c pre) occ).1.
Proof.
  revert c. induction pre as [|o pre IH]; intros c Hw; [done |].
  simpl in Hw. apply andb_true_iff in Hw as [Ho Hw].
  destruct o as [ok msg | [e|] | | cause | ]; simpl in Ho; try done; simpl.
  - destruct (Publish_okCallback call ok msg c) as [c' a] eqn:Ec. simpl.
    specialize (IH c' Hw).
    destruct (Publish_wait call id c' (pre ++ occ)) as [res a'].
    simpl in *. by rewrite IH.
  - apply negb_true_iff in Ho. rewrite Ho. auto.
  - auto.
Qed.


(** What [Publish] returns once the frame is written and the echo
    subscription is open is what its wait loop yields. *)
Lemma Publish_outcome ws r n call ctx now event occ conn :
  Connection r = Some conn →
  ws (FrameEVENT event) = None →
  outcome (Publish ws r n call ctx now event occ)
  = match (Publish_wait call (ID event) sent occ).1 with
    | Some res => Returned res
    | None => Blocked
    end.
Proof.
  intros Hc Hw. unfold Publish, default_timeout, Subscribe, Fire.
  fold sent.
  destruct (Deadline ctx); simpl; rewrite Hw, Hc; simpl;
    destruct (Publish_wait call (ID event) sent occ) as [[res|] a]; simpl;
    try done; by rewrite (proj1 (leave_outcome _ _ _ _ _ _ _)).
Qed.

Lemma Publish_write_failure ws r n call ctx now event occ e :
  ws (FrameEVENT event) = Some e →
  outcome (Publish ws r n call ctx now event occ) = Returned (PublishStatusSent, Some e).
Proof.
  intros Hw. unfold Publish, default_timeout.
  destruct (Deadline ctx); simpl; rewrite Hw;
    by rewrite (proj1 (leave_outcome _ _ _ _ _ _ _)).
Qed.



Lemma confirmations_succeeded call c occ :
  status (confirmations (Publish_okCallback call) c occ) = PublishStatusSucceeded →
  status c = PublishStatusSucceeded ∨ ∃ msg, OkReply true msg ∈ occ.
Proof.
  revert c. induction occ as [|o occ IH]; intros c Hs; [by left |].
  destruct o as [ok msg | ev | | cause | ]; simpl in Hs;
    try (destruct (IH _ Hs) as [? | [m Hm]];
         [by left | right; exists m; by apply list_elem_of_further]).
  destruct ok.
  - right. exists msg. apply list_elem_of_here.
  - destruct (IH _ Hs) as [E | [m Hm]]; [done |].
    right. exists m. by apply list_elem_of_further.
Qed.

(** C10.  After a successful write on a connected relay, and after any
    occurrences [pre] that leave the [select] of [Publish] waiting: an
    event whose identity is not the published one is passed over, the
    call ending as it ends on what follows, and blocked when nothing
    follows and no confirmation came; an event with the published
    identity ends the call with [succeeded]; a nil event ends the call
    with the status and the error as they stand, ([sent], nil) when no
    confirmation came, and with [succeeded] only if a positive
    confirmation had set it. *)
Theorem Publish_passes_over_other_events ws r n call ctx now event conn pre :
  Connection r = Some conn →
  ws (FrameEVENT event) = None →
  forallb (Publish_waits (ID event)) pre = true →
  let run := Publish ws r n call ctx now event in
  let c := confirmations (Publish_okCallback call) sent pre in
  (∀ e occ, ID e ≠ ID event →
     outcome (run (pre ++ Received (Some e) :: occ)) = outcome (run (pre ++ occ)))
  ∧ (∀ e, ID e ≠ ID event → (∀ ok msg, OkReply ok msg ∉ pre) →
       outcome (run (pre ++ [Received (Some e)])) = Blocked)
  ∧ (∀ e post, ID e = ID event →
       outcome (run (pre ++ Received (Some e) :: post))
       = Returned (PublishStatusSucceeded, err c))
  ∧ (∀ post, outcome (run (pre ++ Received None :: post)) = Returned (status c, err c))
  ∧ (∀ post, (∀ ok msg, OkReply ok msg ∉ pre) →
       outcome (run (pre ++ Received None :: post)) = Returned (PublishStatusSent, None))
  ∧ (∀ post e, outcome (run (pre ++ Received None :: post))
               = Returned (PublishStatusSucceeded, e) →
       ∃ msg, OkReply true msg ∈ pre).
Proof.
  intros Hc Hw Hpre run c.
  assert (∀ occ, outcome (run (pre ++ occ))
                 = match (Publish_wait call (ID event) c occ).1 with
                   | Some res => Returned res
                   | None => Blocked
                   end) as Hrun.
  { intros occ. unfold run. rewrite (Publish_outcome _ _ _ _ _ _ _ _ conn) by done.
    by rewrite Publish_wait_app by done. }
  assert (∀ e occ, ID e ≠ ID event →
            outcome (run (pre ++ Received (Some e) :: occ)) = outcome (run (pre ++ occ)))
    as Hskip.
  { intros e occ Hne. rewrite !Hrun. simpl.
    apply String.eqb_neq in Hne. by rewrite Hne. }
  split_and!.
  - exact Hskip.
  - intros e Hne Hno. rewrite Hskip by done. rewrite Hrun.
    unfold c. by rewrite confirmations_none.
  - intros e post He. rewrite Hrun. simpl. by rewrite He, String.eqb_refl.
  - intros post. by rewrite Hrun.
  - intros post Hno. rewrite Hrun. simpl.
    unfold c. by rewrite confirmations_none.
  - intros post e. rewrite Hrun. simpl. intros [= Hs _].
    destruct (confirmations_succeeded call sent pre Hs) as [E | Hm]; [done | done].
Qed.

(** ** Auth *)





(** With the scope closed there is nothing to wait for. *)
Lemma Auth_wait_over call c occ :
  canceled c = true →
  Auth_wait call c occ = (Some (Auth_return call c occ).1, (Auth_return call c occ).2).
Proof.
  intros Hc. destruct occ as [|o occ]; cbn [Auth_wait]; rewrite Hc.
  - done.
  - by destruct (Auth_return call c (o :: occ)).
Qed.









(** ** The confirmation registry *)

Lemma Publish_registry ws r n call ctx now event occ :
  let run := Publish ws r n call ctx now event occ in
  (∃ rest, actions run
     = Store (ID event) (PublishCallback call) :: wrote ws (FrameEVENT event) :: rest)
  ∧ (outcome run = Blocked →
       okCallbacks (relay_after run)
       = <[ID event := PublishCallback call]> (okCallbacks r))
  ∧ (outcome run ≠ Blocked →
       okCallbacks (relay_after run) = delete (ID event) (okCallbacks r)
       ∧ Delete (ID event) ∈ actions run).
Proof.
  unfold Publish, default_timeout, Subscribe, Fire, leave.
  destruct (Deadline ctx); simpl;
    destruct (ws (FrameEVENT event)); simpl;
    destruct (Connection r); simpl;
    try destruct (Publish_wait call (ID event) _ occ) as [[res|] a]; simpl.
  all: split_and!; [by eexists | done |].
  all: try done.
  all: intros _; split; [by rewrite delete_insert_eq |].
  all: repeat (first [apply list_elem_of_here | apply list_elem_of_further]);
       rewrite !elem_of_app; right; apply list_elem_of_here.
Qed.

Lemma Auth_registry ws r n call ctx now event early occ :
  let run := Auth ws r n call ctx now event early occ in
  (∃ rest, actions run
     = Store (ID event) (AuthCallback call) :: wrote ws (FrameAUTH event) :: rest)
  ∧ (outcome run = Blocked →
       okCallbacks (relay_after run)
       = <[ID event := AuthCallback call]> (okCallbacks r))
  ∧ (outcome run ≠ Blocked →
       okCallbacks (relay_after run) = delete (ID event) (okCallbacks r)
       ∧ Delete (ID event) ∈ actions run).
Proof.
  unfold Auth, default_timeout, leave.
  destruct (Auth_callbacks call _ early) as [c1 a1].
  destruct (Deadline ctx); simpl;
    destruct (ws (FrameAUTH event)); simpl;
    try destruct (Auth_wait call _ occ) as [[res|] a]; simpl.
  all: split_and!; [by eexists | done |].
  all: try done.
  all: intros _; split; [by rewrite delete_insert_eq |].
  all: rewrite ?elem_of_cons, ?elem_of_app, ?elem_of_cons; naive_solver.
Qed.

(** C4, as the code has it.  In [Publish] and in [Auth] the callback is
    stored under the event's identity immediately before the frame is
    written; while the call is blocked the entry is there; once the
    call is over (returned after success, failure, timeout or
    cancellation, or panicked) the registry is the registry of before
    the call without any entry under that identity: none is left
    dangling, the other entries are untouched, and the registry is the
    same as before the call exactly when the identity was not
    registered before it. *)
Theorem registry_entry_is_removed ws r n call ctx now event early occ :
  let id := ID event in
  let p := Publish ws r n call ctx now event occ in
  let a := Auth ws r n call ctx now event early occ in
  ((∃ rest, actions p = Store id (PublishCallback call) :: wrote ws (FrameEVENT event) :: rest)
   ∧ (∃ rest, actions a = Store id (AuthCallback call) :: wrote ws (FrameAUTH event) :: rest))
  ∧ ((outcome p = Blocked → okCallbacks (relay_after p) !! id = Some (PublishCallback call))
     ∧ (outcome a = Blocked → okCallbacks (relay_after a) !! id = Some (AuthCallback call)))
  ∧ ((outcome p ≠ Blocked →
        okCallbacks (relay_after p) = delete id (okCallbacks r)
        ∧ okCallbacks (relay_after p) !! id = None
        ∧ Delete id ∈ actions p)
     ∧ (outcome a ≠ Blocked →
        okCallbacks (relay_after a) = delete id (okCallbacks r)
        ∧ okCallbacks (relay_after a) !! id = None
        ∧ Delete id ∈ actions a))
  ∧ (delete id (okCallbacks r) = okCallbacks r ↔ okCallbacks r !! id = None).
Proof.
  intros id p a.
  destruct (Publish_registry ws r n call ctx now event occ) as (Hp1 & Hp2 & Hp3).
  destruct (Auth_registry ws r n call ctx now event early occ) as (Ha1 & Ha2 & Ha3).
  split_and!; try done.
  - intros Hb. unfold p, id. rewrite (Hp2 Hb). apply lookup_insert_eq.
  - intros Hb. unfold a, id. rewrite (Ha2 Hb). apply lookup_insert_eq.
  - intros Hb. destruct (Hp3 Hb) as [E Hin]. split_and!; [done | | done].
    unfold p. rewrite E. apply lookup_delete_eq.
  - intros Hb. destruct (Ha3 Hb) as [E Hin]. split_and!; [done | | done].
    unfold a. rewrite E. apply lookup_delete_eq.
  - split.
    + intros E. rewrite <- E. apply lookup_delete_eq.
    + apply delete_id.
Qed.

(** ** QuerySync *)

Lemma QuerySync_wait_app events pre occ :
  forallb QuerySync_waits pre = true →
  QuerySync_wait events (pre ++ occ) = QuerySync_wait (events ++ arrived pre) occ.
Proof.
  revert events. induction pre as [|o pre IH]; intros events Hw.
  - by rewrite app_nil_r.
  - simpl in Hw. apply andb_true_iff in Hw as [Ho Hw].
    destruct o as [ok msg | [e|] | | cause | ]; simpl in Ho; try done; simpl; auto.
    rewrite IH by done. by rewrite <- app_assoc.
Qed.

Lemma QuerySync_wait_ends events o rest :
  QuerySync_ends o = true → QuerySync_wait events (o :: rest) = Some (events, rest).
Proof.
  by destruct o as [ok msg | [e|] | | cause | ].
Qed.

Lemma in_flight_app post more :
  in_flight post = true → in_flight (post ++ more) = true.
Proof.
  intros Hin. unfold in_flight in *. rewrite existsb_app, Hin. done.
Qed.

Lemma QuerySync_run ws r n ctx now filter occ conn :
  Connection r = Some conn →
  let run := QuerySync ws r n ctx now filter occ in
  let subId := pretty n in
  outcome run
  = match QuerySync_wait [] occ with
    | Some (events, rest) => if in_flight rest then Blocked else Returned events
    | None => Blocked
    end
  ∧ Deadline (scope run)
    = Some (match Deadline ctx with Some d => d | None => now + 7 * Second end)
  ∧ (outcome run = Blocked →
       is_Some (subscriptions (relay_after run) !! subId)
       ∧ Lock (SubMutex subId) ∉ actions run)
  ∧ (outcome run ≠ Blocked →
       subscriptions (relay_after run) !! subId = None
       ∧ ∃ a, actions run = a ++ (Unsub ws r subId).2)
  ∧ (∀ events rest, QuerySync_wait [] occ = Some (events, rest) →
       in_flight rest = true →
       ∃ a, actions run = a ++ [wrote ws (FrameCLOSE subId)]).
Proof.
  intros Hc. unfold QuerySync, default_timeout, Subscribe, Fire, leave, GetID.
  rewrite Hc. simpl.
  destruct (Deadline ctx) as [d|] eqn:Ed; simpl;
    destruct (QuerySync_wait [] occ) as [[events rest]|]; simpl;
    try destruct (in_flight rest) eqn:Ef; simpl.
  all: rewrite ?Ed.
  all: split_and!; try done.
  all: try (intros _; split; [by rewrite lookup_insert_eq |]; unfold wrote;
            intros Hin; repeat (apply elem_of_cons in Hin as [Hin | Hin]; [done |]);
            by apply elem_of_nil in Hin).
  all: try (intros events0 rest0 [= <- <-] Hin; try congruence).
  all: try (intros _; split; [apply lookup_delete_eq |]).
  - by exists [TableStore (pretty n); wrote ws (FrameREQ (pretty n) [filter])].
  - by exists [TableStore (pretty n); wrote ws (FrameREQ (pretty n) [filter])].
  - by exists [TableStore (pretty n); wrote ws (FrameREQ (pretty n) [filter]);
               CancelTimeout].
  - by exists [TableStore (pretty n); wrote ws (FrameREQ (pretty n) [filter]);
               CancelTimeout].
Qed.

(** C9.  On a connected relay [QuerySync] collects the events in the
    order in which they arrive and leaves its loop at the first of the
    end-of-stored-events signal, its context being done (by the
    deadline, the caller's or 7 seconds from the call, or by the caller)
    and a nil event; until then it is blocked.  What follows decides
    whether it returns.  With an event offered on [sub.Events] before
    the deferred [Unsub] has the subscription's mutex, the call stays
    blocked whatever happens later, past its deadline too: the "CLOSE"
    frame is written, the mutex is never taken and the table keeps the
    subscription.  With no such event the call returns the events
    collected, and the deferred [Unsub] has run: its actions close the
    list and the table has no entry for the subscription. *)
Theorem QuerySync_hangs_with_an_event_in_flight ws r n ctx now filter conn pre o post :
  Connection r = Some conn →
  forallb QuerySync_waits pre = true →
  QuerySync_ends o = true →
  let run := QuerySync ws r n ctx now filter in
  let subId := pretty n in
  (in_flight post = true →
     ∀ more, let hung := run (pre ++ o :: post ++ more) in
       outcome hung = Blocked
       ∧ is_Some (subscriptions (relay_after hung) !! subId)
       ∧ (∃ a, actions hung = a ++ [wrote ws (FrameCLOSE subId)])
       ∧ Lock (SubMutex subId) ∉ actions hung)
  ∧ (∀ e more, outcome (run (pre ++ o :: Received (Some e) :: more)) = Blocked)
  ∧ (in_flight post = false →
       let over := run (pre ++ o :: post) in
       outcome over = Returned (arrived pre)
       ∧ subscriptions (relay_after over) !! subId = None
       ∧ ∃ a, actions over
              = a ++ [wrote ws (FrameCLOSE subId); Lock (SubMutex subId);
                      SetStopped subId; Unlock (SubMutex subId); TableDelete subId])
  ∧ outcome (run pre) = Blocked
  ∧ (∀ occ, Deadline (scope (run occ))
       = Some (match Deadline ctx with Some d => d | None => now + 7 * Second end)).
Proof.
  intros Hc Hpre Ho run subId.
  assert (∀ rest, QuerySync_wait [] (pre ++ o :: rest) = Some (arrived pre, rest)) as Hwait.
  { intros rest. rewrite QuerySync_wait_app by done. by apply QuerySync_wait_ends. }
  assert (∀ rest, outcome (run (pre ++ o :: rest))
                  = if in_flight rest then Blocked else Returned (arrived pre)) as Hrun.
  { intros rest. unfold run.
    rewrite (proj1 (QuerySync_run ws r n ctx now filter _ conn Hc)).
    by rewrite Hwait. }
  split_and!.
  - intros Hin more hung.
    assert (outcome hung = Blocked) as Hb.
    { unfold hung. rewrite Hrun. by rewrite in_flight_app. }
    destruct (QuerySync_run ws r n ctx now filter (pre ++ o :: post ++ more) conn Hc)
      as (_ & _ & Hblocked & _ & Hclose).
    destruct (Hblocked Hb) as [Htable Hlock].
    split_and!; [done | done | | done].
    apply (Hclose _ _ (Hwait _)). by apply in_flight_app.
  - intros e more. by rewrite Hrun.
  - intros Hout over.
    assert (outcome over = Returned (arrived pre)) as Hret.
    { unfold over. rewrite Hrun. by rewrite Hout. }
    destruct (QuerySync_run ws r n ctx now filter (pre ++ o :: post) conn Hc)
      as (_ & _ & _ & Hover & _).
    split; [done |]. apply Hover. fold run. fold over. by rewrite Hret.
  - unfold run. rewrite (proj1 (QuerySync_run ws r n ctx now filter _ conn Hc)).
    rewrite <- (app_nil_r pre), QuerySync_wait_app by done. done.
  - intros occ. apply (QuerySync_run ws r n ctx now filter occ conn Hc).
Qed.

End Calls.

(** * The model at concrete inputs *)

Module Runs.
Import Sample.

(** After the transport has signalled permanent closure the goroutine
    is still running, the connection context is live, and the frame that
    follows is processed. *)
Example dispatcher_after_permanent_closure :
  dispatcher subscribed [Failed closed; frame_EOSE "7"]
  = (set_subscriptions subscribed {[ "7" := set_emitEose (subscription 7 ["e1"]) ]},
     [GoErrors "websocket: close 1006 (abnormal closure)"; SendEose "7"], Running)
  ∧ ConnectionContext (dispatcher subscribed [Failed closed; frame_EOSE "7"]).1.1 = Some Live.
Proof. split; vm_compute; reflexivity. Qed.

(** A relay that never comes up and a caller without deadline:
    [Connect] returns nil. *)
Example Connect_to_a_relay_that_never_answers :
  Connect relay no_deadline 0 None
  = (relay, None, [Dial "wss://relay.example"; GoHeartbeat; GoDispatcher; TickerStop;
                   CancelTimeout]).
Proof. reflexivity. Qed.

Example dispatcher_calls_the_callback :
  (loop_body waiting (frame_OK false "restricted")).1.2
  = [Call (AuthCallback 4) false "restricted"].
Proof. vm_compute. reflexivity. Qed.

(** A refusal travels from the frame to the result of [Auth]: the
    call is blocked with its callback registered, the Dispatcher reads
    the "OK" frame and calls the callback, and the call returns
    [failed] with the relay's message. *)
Example Auth_refused_by_an_OK_frame :
  let blocked := Auth always_writes relay 0 4 no_deadline 0 e1 [] [] in
  let acts := (dispatcher (relay_after blocked) [frame_OK false "restricted"]).1.2 in
  outcome blocked = Blocked
  ∧ acts = [Call (AuthCallback 4) false "restricted"]
  ∧ outcome (Auth always_writes relay 0 4 no_deadline 0 e1 []
               (occurrences (AuthCallback 4) "0" acts))
    = Returned (PublishStatusFailed, Some "msg: restricted").
Proof. split_and!; vm_compute; reflexivity. Qed.

(** An echo travels from the frame to the result of [Publish]: the
    Dispatcher delivers the event to the echo subscription, registered
    under "0", and the call returns [succeeded]. *)
Example Publish_confirmed_by_an_echo :
  let blocked := Publish always_writes relay 0 4 no_deadline 0 e1 [] in
  let acts := (dispatcher (relay_after blocked) [frame_EVENT "0" e1]).1.2 in
  outcome blocked = Blocked
  ∧ acts = [Lock (SubMutex "0"); ReadStopped "0" false; SendEvent "0" e1;
            Unlock (SubMutex "0")]
  ∧ outcome (Publish always_writes relay 0 4 no_deadline 0 e1
               (occurrences (PublishCallback 4) "0" acts))
    = Returned (PublishStatusSucceeded, None).
Proof. split_and!; vm_compute; reflexivity. Qed.

(** [QuerySync] and the Dispatcher: of the events the relay sends for
    the subscription, those that match the filter are delivered and
    collected until the "EOSE" frame. *)
Example QuerySync_through_the_dispatcher :
  let blocked := QuerySync always_writes relay 0 no_deadline 0 ["e1"] [] in
  let acts := (dispatcher (relay_after blocked)
                 [frame_EVENT "0" e1; frame_EVENT "0" e2; frame_EOSE "0"]).1.2 in
  outcome blocked = Blocked
  ∧ occurrences (PublishCallback 0) "0" acts = [Received (Some e1); Eose]
  ∧ outcome (QuerySync always_writes relay 0 no_deadline 0 ["e1"]
               (occurrences (PublishCallback 0) "0" acts))
    = Returned [e1].
Proof. split_and!; vm_compute; reflexivity. Qed.

(** A relay that goes on with a matching event right after its "EOSE"
    frame: the Dispatcher offers the event on [sub.Events] while
    [QuerySync] is on its way out, and the call does not return, not
    even when its deadline passes. *)
Example QuerySync_after_the_EOSE_frame :
  let blocked := QuerySync always_writes relay 0 no_deadline 0 ["e1"] [] in
  let acts := (dispatcher (relay_after blocked)
                 [frame_EVENT "0" e1; frame_EOSE "0"; frame_EVENT "0" e1]).1.2 in
  occurrences (PublishCallback 0) "0" acts = [Received (Some e1); Eose; Received (Some e1)]
  ∧ outcome (QuerySync always_writes relay 0 no_deadline 0 ["e1"]
               (occurrences (PublishCallback 0) "0" acts))
    = Blocked
  ∧ outcome (QuerySync always_writes relay 0 no_deadline 0 ["e1"]
               (occurrences (PublishCallback 0) "0" acts ++ [CtxDone DeadlineExceeded]))
    = Blocked.
Proof. split_and!; vm_compute; reflexivity. Qed.

(** ** Instances of the theorems *)

Lemma tagged_EOSE : tagged (frame_EOSE "7") "EOSE" 2 [q "EOSE"; q "7"].
Proof.
  exists (arr [q "EOSE"; q "7"]).
  split_and!; [reflexivity | reflexivity | reflexivity | simpl; lia | simpl; lia
              | reflexivity].
Defined.

Lemma tagged_EVENT_e1 :
  tagged (frame_EVENT "7" e1) "EVENT" 3 [q "EVENT"; q "7"; enc_event e1].
Proof.
  exists (arr [q "EVENT"; q "7"; enc_event e1]).
  split_and!; [reflexivity | reflexivity | reflexivity | simpl; lia | simpl; lia
              | reflexivity].
Defined.

Lemma frame_PING_malformed : Malformed frame_PING.
Proof.
  apply (UnknownTag _ _ [q "PING"; q "x"]); reflexivity.
Defined.

(** C7 at a frame with an unknown tag. *)
Lemma malformed_frames_are_dropped_witness :
  Malformed frame_PING
  ∧ loop_body waiting frame_PING = (waiting, [], Next)
  ∧ dispatcher waiting [frame_PING; frame_EOSE "7"] = dispatcher waiting [frame_EOSE "7"].
Proof.
  pose proof (malformed_frames_are_dropped waiting frame_PING [frame_EOSE "7"]
                frame_PING_malformed) as (Hb & _ & _ & _ & Hd).
  split_and!; [exact frame_PING_malformed | exact Hb |].
  rewrite Hd. vm_compute. reflexivity.
Defined.

(** C5 at an event that matches, on a live subscription. *)
Lemma EVENT_frame_delivery_witness :
  tagged (frame_EVENT "7" e1) "EVENT" 3 [q "EVENT"; q "7"; enc_event e1]
  ∧ loop_body subscribed (frame_EVENT "7" e1)
    = (subscribed,
       [Lock (SubMutex "7"); ReadStopped "7" false; SendEvent "7" e1;
        Unlock (SubMutex "7")], Next).
Proof.
  split; [exact tagged_EVENT_e1 |].
  pose proof (EVENT_frame_delivery subscribed (frame_EVENT "7" e1) _ tagged_EVENT_e1)
    as (_ & _ & Hs).
  change (subscriptions subscribed !! json_string (index [q "EVENT"; q "7"; enc_event e1] 1))
    with (Some (subscription 7 ["e1"])) in Hs.
  destruct Hs as [_ Hs]. apply Hs; [reflexivity | reflexivity | right; reflexivity].
Defined.

(** C6 at two "EOSE" frames for subscription "7". *)
Lemma EOSE_fires_once_witness :
  tagged (frame_EOSE "7") "EOSE" 2 [q "EOSE"; q "7"]
  ∧ (dispatcher subscribed [frame_EOSE "7"; frame_EOSE "7"]).1.2 = [SendEose "7"].
Proof.
  split; [exact tagged_EOSE |].
  pose proof (EOSE_fires_once subscribed (frame_EOSE "7") (frame_EOSE "7") _ _ "7"
                tagged_EOSE eq_refl tagged_EOSE eq_refl) as (_ & _ & Hs).
  apply (Hs (subscription 7 ["e1"])); reflexivity.
Defined.


(** C10: the end-of-stored-events signal, then an event with another
    identity; and then a nil event. *)
Lemma Publish_passes_over_other_events_witness :
  Connection relay = Some {| KeepAliveTimeout := 10 * Second; RecIntvlMin := 5 * Second |}
  ∧ always_writes (FrameEVENT e1) = None
  ∧ forallb (Publish_waits (ID e1)) [Eose] = true
  ∧ outcome (Publish always_writes relay 0 1 no_deadline 0 e1
               ([Eose] ++ [Received (Some e2)]))
    = Blocked
  ∧ outcome (Publish always_writes relay 0 1 no_deadline 0 e1
               ([Eose] ++ Received (Some e2) :: [Received None]))
    = Returned (PublishStatusSent, None).
Proof.
  pose proof (Publish_passes_over_other_events always_writes relay 0 1 no_deadline 0 e1
                _ [Eose] eq_refl eq_refl eq_refl) as (Hs & Hb & _ & _ & Hn & _).
  assert (ID e2 ≠ ID e1) as Hne by (simpl; discriminate).
  assert (∀ ok msg, OkReply ok msg ∉ [Eose : Occurrence]) as Hno
    by (intros ok msg Hin; apply elem_of_cons in Hin as [Hin | Hin];
        [discriminate Hin | by apply elem_of_nil in Hin]).
  split_and!; [reflexivity | reflexivity | reflexivity | exact (Hb e2 Hne Hno) |].
  exact (eq_trans (Hs e2 [Received None] Hne) (Hn [] Hno)).
Defined.



(** C4: a call that times out, on a registry that is empty before it. *)
Lemma registry_entry_is_removed_witness :
  outcome (Publish always_writes relay 0 1 no_deadline 0 e1 [CtxDone DeadlineExceeded])
  ≠ Blocked
  ∧ okCallbacks (relay_after
       (Publish always_writes relay 0 1 no_deadline 0 e1 [CtxDone DeadlineExceeded]))
    = okCallbacks relay.
Proof.
  assert (outcome (Publish always_writes relay 0 1 no_deadline 0 e1
                     [CtxDone DeadlineExceeded]) ≠ Blocked) as Hover
    by (vm_compute; discriminate).
  split; [exact Hover |].
  pose proof (registry_entry_is_removed always_writes relay 0 1 no_deadline 0 e1
                [] [CtxDone DeadlineExceeded]) as (_ & _ & [Hp _] & Hsame).
  destruct (Hp Hover) as (E & _ & _). rewrite E.
  apply Hsame. reflexivity.
Defined.

(** C4 as stated fails: when the identity is registered before the call
    (here by an [Auth] in flight for the same event), the call stores
    its own callback over it and deletes the entry on return; the
    registry has an entry for the identity before and none after. *)
Lemma registry_differs_when_the_identity_was_registered :
  let run := Publish always_writes waiting 0 1 no_deadline 0 e1 [CtxDone DeadlineExceeded] in
  okCallbacks waiting !! "e1" = Some (AuthCallback 4)
  ∧ outcome run = Returned (PublishStatusSent, None)
  ∧ okCallbacks (relay_after run) !! "e1" = None
  ∧ okCallbacks (relay_after run) ≠ okCallbacks waiting.
Proof.
  split_and!; [reflexivity | reflexivity | reflexivity |].
  intros E. apply (f_equal (λ m, m !! "e1")) in E. vm_compute in E. discriminate.
Qed.

(** C9: two events, the end-of-stored-events signal, one more event,
    and the deadline. *)
Lemma QuerySync_hangs_with_an_event_in_flight_witness :
  Connection relay = Some {| KeepAliveTimeout := 10 * Second; RecIntvlMin := 5 * Second |}
  ∧ forallb QuerySync_waits [Received (Some e2); Received (Some e1)] = true
  ∧ QuerySync_ends Eose = true
  ∧ in_flight [Received (Some e1)] = true
  ∧ outcome (QuerySync always_writes relay 0 no_deadline 0 ["e1"; "e2"]
               ([Received (Some e2); Received (Some e1)]
                ++ Eose :: [Received (Some e1)] ++ [CtxDone DeadlineExceeded]))
    = Blocked
  ∧ is_Some (subscriptions (relay_after
       (QuerySync always_writes relay 0 no_deadline 0 ["e1"; "e2"]
          ([Received (Some e2); Received (Some e1)]
           ++ Eose :: [Received (Some e1)] ++ [CtxDone DeadlineExceeded]))) !! "0").
Proof.
  pose proof (QuerySync_hangs_with_an_event_in_flight always_writes relay 0 no_deadline 0
                ["e1"; "e2"] _ [Received (Some e2); Received (Some e1)] Eose
                [Received (Some e1)] eq_refl eq_refl eq_refl) as (Hh & _).
  destruct (Hh eq_refl [CtxDone DeadlineExceeded]) as (Hb & Ht & _).
  split_and!; [reflexivity | reflexivity | reflexivity | reflexivity | exact Hb | exact Ht].
Defined.

End Runs.

(** * Further properties of the message loop *)

Section Loop.
Context `{Collaborators}.

Implicit Types (r : Relay) (rd : ReadResult) (reads : list ReadResult).

(** X1.  [String] gives the three known statuses three different names
    and calls every other value "unknown". *)
Theorem Status_String_names (s s' : Status) :
  (Status_String s = "unknown"
   ↔ s ≠ PublishStatusSent ∧ s ≠ PublishStatusFailed ∧ s ≠ PublishStatusSucceeded)
  ∧ (Status_String s ≠ "unknown" → Status_String s = Status_String s' → s = s').
Proof.
  unfold Status_String, PublishStatusSent, PublishStatusFailed, PublishStatusSucceeded.
  destruct (s =? 0) eqn:E0; [apply Z.eqb_eq in E0 | apply Z.eqb_neq in E0];
    (destruct (s =? -1) eqn:E1; [apply Z.eqb_eq in E1 | apply Z.eqb_neq in E1]);
    (destruct (s =? 1) eqn:E2; [apply Z.eqb_eq in E2 | apply Z.eqb_neq in E2]);
    try lia.
  all: split; [split; [try discriminate; try done | intros (? & ? & ?); done] |].
  all: intros Hk Hs; try done.
  all: destruct (s' =? 0) eqn:F0; [apply Z.eqb_eq in F0 | apply Z.eqb_neq in F0];
    (destruct (s' =? -1) eqn:F1; [apply Z.eqb_eq in F1 | apply Z.eqb_neq in F1]);
    (destruct (s' =? 1) eqn:F2; [apply Z.eqb_eq in F2 | apply Z.eqb_neq in F2]);
    try discriminate; lia.
Qed.

(** ** The loop, one read after the other *)

Lemma dispatcher_app r reads reads' :
  dispatcher r (reads ++ reads')
  = match (dispatcher r reads).2 with
    | Running =>
        ((dispatcher (dispatcher r reads).1.1 reads').1.1,
         (dispatcher r reads).1.2 ++ (dispatcher (dispatcher r reads).1.1 reads').1.2,
         (dispatcher (dispatcher r reads).1.1 reads').2)
    | _ => dispatcher r reads
    end.
Proof.
  revert r. induction reads as [|rd reads IH]; intros r.
  - simpl. by destruct (dispatcher r reads') as [[? ?] ?].
  - rewrite <- app_comm_cons, !dispatcher_cons.
    destruct ((loop_body r rd).2); simpl; try done.
    rewrite IH.
    destruct ((dispatcher (loop_body r rd).1.1 reads).2) eqn:Et; simpl;
      rewrite ?Et; try done.
    by rewrite app_assoc.
Qed.

(** ** Notices and challenges *)

Lemma loop_body_broadcast r rd a :
  broadcast rd a → loop_body r rd = (r, [a], Next).
Proof.
  intros [(js & Ht & ->) | (js & Ht & ->)];
    by rewrite (loop_body_tagged r rd _ 2 js Ht).
Qed.

(** X2.  A run of "NOTICE" and "AUTH" frames changes nothing in the
    relay and starts, frame by frame and in the order of the frames, one
    send of the decoded second element: to [Notices] for a notice, to
    [Challenges] for a challenge (the empty string when the element is
    not a JSON string). *)
Theorem notices_and_challenges_in_order r reads acts :
  Forall2 broadcast reads acts →
  dispatcher r reads = (r, acts, Running).
Proof.
  induction 1 as [|rd a reads acts Hb _ IH]; [done |].
  rewrite dispatcher_cons, (loop_body_broadcast r rd a Hb). simpl.
  by rewrite IH.
Qed.

(** ** Acknowledgements *)

Lemma route_OK r js :
  (3 ≤ length js)%nat →
  route r "OK" js
  = (r,
     match okCallbacks r !! json_string (index js 1) with
     | Some okCallback =>
         [Call okCallback (json_bool (index js 2))
            (if (3 <? length js)%nat then json_string (index js 3) else EmptyString)]
     | None => []
     end, Next).
Proof.
  intros Hl. unfold route. simpl.
  destruct (length js <? 3)%nat eqn:E; [apply Nat.ltb_lt in E; lia |].
  by destruct (okCallbacks r !! json_string (index js 1)).
Qed.

(** X3.  An "OK" frame calls the callback registered under its event
    identity with the decoded acceptance and message: the message is
    empty when the frame has three elements, the acceptance is [false]
    when the third element is not a JSON boolean.  With no callback
    under that identity nothing happens.  The loop never removes the
    callback: every further "OK" frame for the identity calls it
    again. *)
Theorem OK_frame_calls_the_callback r rd js k :
  tagged rd "OK" 3 js →
  let eventId := json_string (index js 1) in
  let ok := json_bool (index js 2) in
  let msg := if (3 <? length js)%nat then json_string (index js 3) else EmptyString in
  let calls := match okCallbacks r !! eventId with
               | Some okCallback => [Call okCallback ok msg]
               | None => []
               end in
  loop_body r rd = (r, calls, Next)
  ∧ (length js = 3%nat → msg = EmptyString)
  ∧ (Unmarshal_bool (index js 2) = None → ok = false)
  ∧ dispatcher r (replicate k rd) = (r, concat (replicate k calls), Running).
Proof.
  intros Ht eventId ok msg calls.
  assert (loop_body r rd = (r, calls, Next)) as Hb.
  { rewrite (loop_body_tagged r rd "OK" 3 js Ht).
    destruct Ht as (_ & _ & _ & _ & _ & H3 & _). by rewrite route_OK. }
  split_and!; [done | | |].
  - intros Hl. unfold msg. by rewrite Hl.
  - intros Hu. unfold ok, json_bool. by rewrite Hu.
  - induction k as [|k IH]; [done |].
    simpl replicate. rewrite dispatcher_cons, Hb. simpl. by rewrite IH.
Qed.

(** ** What the loop keeps *)

Lemma later_state_refl sub : later_state sub sub.
Proof. by repeat split. Qed.

Lemma loop_body_later r rd subId :
  option_Forall2 later_state (subscriptions r !! subId)
    (subscriptions (loop_body r rd).1.1 !! subId).
Proof.
  destruct (loop_body_relay r rd) as [-> | (s & sub & Hs & He & ->)].
  - destruct (subscriptions r !! subId); constructor. apply later_state_refl.
  - simpl. destruct (decide (s = subId)) as [-> | Hne].
    + rewrite lookup_insert_eq, Hs. constructor. by repeat split.
    + rewrite lookup_insert_ne by done.
      destruct (subscriptions r !! subId); constructor. apply later_state_refl.
Qed.

Lemma later_state_trans a b c : later_state a b → later_state b c → later_state a c.
Proof.
  intros (? & ? & ? & ? & ?) (? & ? & ? & ? & ?). repeat split; try congruence; auto.
Qed.

(** X4.  Whatever it reads, the loop leaves the confirmation registry,
    the connection, the connection context, the URL and the trust flag
    as they are, registers and removes no subscription, and changes
    nothing in a registered subscription except that its
    end-of-stored-events [sync.Once] may have run. *)
Theorem dispatcher_keeps_the_relay r reads :
  let r' := (dispatcher r reads).1.1 in
  okCallbacks r' = okCallbacks r
  ∧ Connection r' = Connection r
  ∧ ConnectionContext r' = ConnectionContext r
  ∧ URL r' = URL r
  ∧ AssumeValid r' = AssumeValid r
  ∧ dom (subscriptions r') = dom (subscriptions r)
  ∧ ∀ subId, option_Forall2 later_state (subscriptions r !! subId)
               (subscriptions r' !! subId).
Proof.
  assert (∀ reads r,
    okCallbacks (dispatcher r reads).1.1 = okCallbacks r
    ∧ Connection (dispatcher r reads).1.1 = Connection r
    ∧ ConnectionContext (dispatcher r reads).1.1 = ConnectionContext r
    ∧ URL (dispatcher r reads).1.1 = URL r
    ∧ AssumeValid (dispatcher r reads).1.1 = AssumeValid r
    ∧ ∀ subId, option_Forall2 later_state (subscriptions r !! subId)
                 (subscriptions (dispatcher r reads).1.1 !! subId)) as Hall.
  { clear. induction reads as [|rd reads IH]; intros r.
    - simpl. split_and!; try done. intros subId.
      destruct (subscriptions r !! subId); constructor. apply later_state_refl.
    - rewrite dispatcher_cons.
      pose proof (loop_body_keeps r rd) as (K1 & K2 & K3 & K4 & K5).
      pose proof (loop_body_control r rd) as Hc.
      pose proof (loop_body_later r rd) as Hl.
      destruct ((loop_body r rd).2); try done; simpl; try (by split_and!).
      destruct (IH (loop_body r rd).1.1) as (I1 & I2 & I3 & I4 & I5 & I6).
      split_and!; try congruence.
      intros subId. specialize (Hl subId). specialize (I6 subId).
      destruct Hl as [a b Hab|]; inversion I6 as [b' c Hbc|]; subst; constructor.
      by eapply later_state_trans. }
  intros r'. destruct (Hall reads r) as (H1 & H2 & H3 & H4 & H5 & H6).
  split_and!; try done.
  apply set_eq. intros subId. rewrite !elem_of_dom.
  specialize (H6 subId). fold r' in H6.
  destruct H6; split; intros [? ?]; try done; by eexists.
Qed.

(** ** Panics *)

Lemma deliver_panic r subId sub raw :
  (deliver r subId sub raw).2 = Panic → Filters sub = [].
Proof.
  unfold deliver. repeat case_match; simpl; congruence.
Qed.

Lemma loop_body_panic r rd :
  (loop_body r rd).2 = Panic → ∃ subId sub, subscriptions r !! subId = Some sub ∧ Filters sub = [].
Proof.
  unfold loop_body. repeat case_match; simpl; try done.
  unfold route. repeat case_match; simpl; try done.
  intros Hp.
  pose proof (deliver_panic r (json_string (index l 1)) s (index l 2)) as Hd.
  match goal with Hx : deliver _ _ _ _ = _ |- _ => rewrite Hx in Hd end.
  eauto.
Qed.

Lemma loop_body_has_filters r rd :
  has_filters r → has_filters (loop_body r rd).1.1.
Proof.
  intros Hf subId sub' Hs'.
  pose proof (loop_body_later r rd subId) as Hl. rewrite Hs' in Hl.
  inversion Hl as [sub ? (_ & HF & _) Hs|]; subst.
  rewrite HF. by eapply Hf.
Qed.

(** X5.  The loop can panic in one place only, the log line of an
    "EVENT" frame that does not match a subscription without filters.
    So when every registered subscription has at least one filter, the
    goroutine survives every sequence of reads, and a goroutine that
    has crashed had a subscription without filters in its table. *)
Theorem dispatcher_survives_with_filters r reads :
  (has_filters r → (dispatcher r reads).2 = Running)
  ∧ ((dispatcher r reads).2 = Crashed →
       ∃ subId sub, subscriptions r !! subId = Some sub ∧ Filters sub = []).
Proof.
  assert (∀ reads r, has_filters r → (dispatcher r reads).2 = Running) as Hrun.
  { clear. induction reads as [|rd reads IH]; intros r Hf; [done |].
    rewrite dispatcher_cons.
    pose proof (loop_body_control r rd) as Hc.
    pose proof (loop_body_panic r rd) as Hp.
    destruct ((loop_body r rd).2); try done; simpl.
    - apply IH. by apply loop_body_has_filters.
    - destruct Hp as (subId & sub & Hs & He); [done |]. by destruct (Hf subId sub Hs). }
  split; [apply Hrun |].
  revert r. induction reads as [|rd reads IH]; intros r; [done |].
  rewrite dispatcher_cons.
  pose proof (loop_body_panic r rd) as Hp.
  pose proof (loop_body_later r rd) as Hl.
  destruct ((loop_body r rd).2); simpl; try done; [| auto].
  intros Hc. destruct (IH _ Hc) as (subId & sub' & Hs' & He).
  specialize (Hl subId). rewrite Hs' in Hl.
  inversion Hl as [sub ? (_ & HF & _) Hs|]; subst.
  exists subId, sub. split; [done | congruence].
Qed.

(** ** Pings *)

Lemma deliver_pongs r subId sub raw : pongs (deliver r subId sub raw).1 = 0%nat.
Proof. unfold deliver. by repeat case_match. Qed.

Lemma route_pongs r command js : pongs (route r command js).1.2 = 0%nat.
Proof.
  unfold route. repeat case_match; simpl; try done.
  pose proof (deliver_pongs r (json_string (index js 1)) s (index js 2)) as Hd.
  match goal with Hx : deliver _ _ _ _ = _ |- _ => by rewrite Hx in Hd end.
Qed.

Lemma loop_body_pongs r rd : pongs (loop_body r rd).1.2 = pings [rd].
Proof.
  unfold loop_body. destruct rd as [typ message | e]; [| done]. simpl.
  destruct (typ =? PingMessage); [done |].
  repeat case_match; simpl; try done. apply route_pongs.
Qed.

Lemma pongs_app a b : pongs (a ++ b) = (pongs a + pongs b)%nat.
Proof.
  induction a as [|x a IH]; [done |]. destruct x; simpl; rewrite ?IH; lia.
Qed.

(** X6.  Pongs are written for pings and for nothing else: the loop
    never writes more pongs than it has read pings, and as long as the
    goroutine is running every ping read has been answered by exactly
    one pong, whatever the payload of the ping. *)
Theorem every_ping_is_answered r reads :
  (pongs (dispatcher r reads).1.2 ≤ pings reads)%nat
  ∧ ((dispatcher r reads).2 = Running →
       pongs (dispatcher r reads).1.2 = pings reads).
Proof.
  revert r. induction reads as [|rd reads IH]; intros r; [done |].
  rewrite dispatcher_cons.
  pose proof (loop_body_pongs r rd) as Hp.
  pose proof (loop_body_control r rd) as Hc.
  change (pings (rd :: reads)) with (pings ([rd] ++ reads)).
  assert (∀ a b, pings (a ++ b) = (pings a + pings b)%nat) as Happ.
  { clear. induction a as [|x a IHa]; intros b; [done |].
    destruct x; simpl; rewrite ?IHa; lia. }
  rewrite Happ.
  destruct ((loop_body r rd).2); try done; cbn [fst snd].
  - rewrite pongs_app. destruct (IH (loop_body r rd).1.1) as [IH1 IH2].
    split; [lia |]. intros Hr. rewrite (IH2 Hr). lia.
  - split; [lia | done].
Qed.

End Loop.

(** * Further properties of the calls *)

Section MoreCalls.
Context `{Collaborators}.

Implicit Types (r : Relay) (ws : Writer) (ctx : Context) (c : Cell)
  (occ pre post : list Occurrence).

(** ** Subscribe and PrepareSubscription *)


(** ** Connect and RelayConnect *)

(** X9.  [Connect] keeps the subscription table, the registry, the URL
    and the trust flag.  With a URL it stores a connection and a live
    connection context, so that a [Subscribe] that follows does not
    panic; with an empty URL it leaves the connection as it was and the
    connection context is cancelled. *)
Theorem Connect_prepares_the_relay r ctx now established :
  let r' := (Connect r ctx now established).1.1 in
  (subscriptions r' = subscriptions r ∧ okCallbacks r' = okCallbacks r
   ∧ URL r' = URL r ∧ AssumeValid r' = AssumeValid r)
  ∧ (URL r ≠ EmptyString →
       ConnectionContext r' = Some Live
       ∧ Connection r'
         = Some {| KeepAliveTimeout := 10 * Second; RecIntvlMin := 5 * Second |}
       ∧ ∀ ws n ctx' filters, Subscribe ws r' n ctx' filters ≠ None)
  ∧ (URL r = EmptyString →
       ConnectionContext r' = Some Canceled ∧ Connection r' = Connection r).
Proof.
  unfold Connect. simpl.
  destruct (String.eqb (URL r) EmptyString) eqn:E;
    [apply String.eqb_eq in E | apply String.eqb_neq in E].
  - simpl. split_and!; done.
  - destruct (Deadline ctx); simpl; (split_and!; try done);
      intros _; (split_and!; try done); intros ws n ctx' filters;
      unfold Subscribe; simpl; done.
Qed.

(** X10.  [RelayConnect] always returns a relay, whose URL is the
    normalised one and whose table and registry are empty.  It returns
    an error exactly when the normalised URL is empty: then nothing was
    dialled, the relay has no connection, its connection context is
    cancelled and a [Subscribe] on it panics.  Otherwise the normalised
    URL was dialled and the relay has a connection and a live
    connection context. *)
Theorem RelayConnect_returns_a_relay (NormalizeURL : string → string) ctx now established url :
  let r := (RelayConnect NormalizeURL ctx now established url).1.1 in
  let err := (RelayConnect NormalizeURL ctx now established url).1.2 in
  let acts := (RelayConnect NormalizeURL ctx now established url).2 in
  (URL r = NormalizeURL url ∧ subscriptions r = ∅ ∧ okCallbacks r = ∅
   ∧ AssumeValid r = false)
  ∧ (err = None ↔ NormalizeURL url ≠ EmptyString)
  ∧ (NormalizeURL url = EmptyString →
       err = Some "invalid relay URL ''" ∧ acts = [CancelConnectionContext]
       ∧ Connection r = None ∧ ConnectionContext r = Some Canceled
       ∧ ∀ ws n ctx' filters, Subscribe ws r n ctx' filters = None)
  ∧ (NormalizeURL url ≠ EmptyString →
       Dial (NormalizeURL url) ∈ acts
       ∧ is_Some (Connection r) ∧ ConnectionContext r = Some Live).
Proof.
  unfold RelayConnect, Connect. simpl.
  destruct (String.eqb (NormalizeURL url) EmptyString) eqn:E;
    [apply String.eqb_eq in E | apply String.eqb_neq in E].
  - simpl. rewrite E. split_and!; try done.
  - destruct (Deadline ctx); simpl; (split_and!; try done);
      try (intros _; split_and!; [apply list_elem_of_here | by eexists | done]).
Qed.

(** ** The deferred calls of Publish and Auth *)

(** X11.  However [Publish] or [Auth] ends (a return on any path, or a
    panic), its last actions are the deferred calls in reverse order of
    their [defer]: the registry entry is deleted, then the scope is
    cancelled, then, when the call had to create the timeout itself,
    that is cancelled too. *)
Theorem deferred_calls_run_last ws r n call ctx now event early occ :
  let p := Publish ws r n call ctx now event occ in
  let a := Auth ws r n call ctx now event early occ in
  (outcome p ≠ Blocked →
     ∃ acts, actions p = acts ++ Delete (ID event) :: cancels call ctx)
  ∧ (outcome a ≠ Blocked →
     ∃ acts, actions a = acts ++ Delete (ID event) :: cancels call ctx).
Proof.
  unfold Publish, Auth, default_timeout, Subscribe, Fire, leave, cancels.
  split.
  - destruct (Deadline ctx); simpl;
      destruct (ws (FrameEVENT event)); simpl;
      destruct (Connection r); simpl;
      try destruct (Publish_wait call (ID event) _ occ) as [[res|] acts]; simpl;
      intros Hne; try done.
    all: try (by eexists [_; _; _]).
    all: try (by eexists [_; _]).
    all: eexists (_ :: _ :: _ :: _ :: acts); simpl; by rewrite <- ?app_assoc.
  - destruct (Auth_callbacks call _ early) as [c1 a1].
    destruct (Deadline ctx); simpl;
      destruct (ws (FrameAUTH event)); simpl;
      try destruct (Auth_wait call _ occ) as [[res|] acts]; simpl;
      intros Hne; try done.
    all: try (by eexists [_; _; _]).
    all: eexists (_ :: _ :: (a1 ++ [_; _; _]) ++ acts); simpl; by rewrite <- ?app_assoc.
Qed.

(** ** What a returned status says *)

Lemma Publish_wait_sound call id c occ s e :
  (Publish_wait call id c occ).1 = Some (s, e) →
  (s = status c ∧ e = err c)
  ∨ (s = PublishStatusSucceeded
     ∧ ((∃ msg, OkReply true msg ∈ occ) ∨ (∃ ev, Received (Some ev) ∈ occ ∧ ID ev = id))
     ∧ (e = err c ∨ ∃ msg, OkReply false msg ∈ occ ∧ e = Some ("msg: " +:+ msg)))
  ∨ (s = PublishStatusFailed
     ∧ ∃ msg, OkReply false msg ∈ occ ∧ e = Some ("msg: " +:+ msg)).
Proof.
  revert c. induction occ as [|o occ IH]; intros c; simpl.
  - destruct (canceled c); [| done]. intros [= <- <-]. by left.
  - destruct o as [ok msg | [ev|] | | cause | ].
    + destruct (Publish_okCallback call ok msg c) as [c' a] eqn:Ec.
      specialize (IH c').
      destruct (Publish_wait call id c' occ) as [res a']. simpl in *.
      intros Hr. specialize (IH Hr). unfold Publish_okCallback in Ec.
      destruct ok; injection Ec as <- <-; simpl in IH.
      * destruct IH as [[-> ->] | [(-> & Hc & He) | (-> & msg' & Hin & ->)]].
        -- right; left. split_and!; [done | | by left].
           left. exists msg. apply list_elem_of_here.
        -- right; left. split_and!; [done | |].
           ++ destruct Hc as [[m Hm] | (ev & Hev & Hid)];
                [left; exists m | right; exists ev; split; [| done]];
                by apply list_elem_of_further.
           ++ destruct He as [-> | (m & Hm & ->)]; [by left |].
              right. exists m. split; [by apply list_elem_of_further | done].
        -- right; right. split; [done |]. exists msg'.
           split; [by apply list_elem_of_further | done].
      * destruct IH as [[-> ->] | [(-> & Hc & He) | (-> & msg' & Hin & ->)]].
        -- right; right. split; [done |]. exists msg.
           split; [apply list_elem_of_here | done].
        -- right; left. split_and!; [done | |].
           ++ destruct Hc as [[m Hm] | (ev & Hev & Hid)];
                [left; exists m | right; exists ev; split; [| done]];
                by apply list_elem_of_further.
           ++ right. destruct He as [-> | (m & Hm & ->)].
              ** exists msg. split; [apply list_elem_of_here | done].
              ** exists m. split; [by apply list_elem_of_further | done].
        -- right; right. split; [done |]. exists msg'.
           split; [by apply list_elem_of_further | done].
    + destruct (String.eqb (ID ev) id) eqn:E.
      * apply String.eqb_eq in E. simpl. intros [= <- <-].
        right; left. split_and!; [done | | by left].
        right. exists ev. split; [apply list_elem_of_here | done].
      * intros Hr.
        destruct (IH c Hr) as [? | [(-> & Hc & He) | (-> & msg' & Hin & ->)]];
          [by left | |].
        -- right; left. split_and!; [done | |].
           ++ destruct Hc as [[m Hm] | (ev' & Hev & Hid)];
                [left; exists m | right; exists ev'; split; [| done]];
                by apply list_elem_of_further.
           ++ destruct He as [-> | (m & Hm & ->)]; [by left |].
              right. exists m. split; [by apply list_elem_of_further | done].
        -- right; right. split; [done |]. exists msg'.
           split; [by apply list_elem_of_further | done].
    + simpl. intros [= <- <-]. by left.
    + intros Hr.
      destruct (IH c Hr) as [? | [(-> & Hc & He) | (-> & msg' & Hin & ->)]];
        [by left | |].
      * right; left. split_and!; [done | |].
        -- destruct Hc as [[m Hm] | (ev' & Hev & Hid)];
             [left; exists m | right; exists ev'; split; [| done]];
             by apply list_elem_of_further.
        -- destruct He as [-> | (m & Hm & ->)]; [by left |].
           right. exists m. split; [by apply list_elem_of_further | done].
      * right; right. split; [done |]. exists msg'.
        split; [by apply list_elem_of_further | done].
    + simpl. intros [= <- <-]. by left.
    + simpl. intros [= <- <-]. by left.
Qed.

(** X12.  Each part of what [Publish] returns is backed by something
    that occurred.  The status is one of the three known ones;
    [succeeded] is returned only if a positive acknowledgement or an
    event with the published identity occurred; [failed] is returned
    only if a negative acknowledgement occurred; an error is the write
    error or the text of a negative acknowledgement that occurred.
    Nothing is said here about which status goes with which error: the
    returns of lines 295 to 314 read the two without the mutex. *)
Theorem Publish_status_is_backed ws r n call ctx now event occ s e :
  outcome (Publish ws r n call ctx now event occ) = Returned (s, e) →
  (s = PublishStatusSent ∨ s = PublishStatusFailed ∨ s = PublishStatusSucceeded)
  ∧ (s = PublishStatusSucceeded →
       (∃ msg, OkReply true msg ∈ occ)
       ∨ (∃ ev, Received (Some ev) ∈ occ ∧ ID ev = ID event))
  ∧ (s = PublishStatusFailed → ∃ msg, OkReply false msg ∈ occ)
  ∧ (∀ x, e = Some x →
       ws (FrameEVENT event) = Some x
       ∨ ∃ msg, OkReply false msg ∈ occ ∧ x = "msg: " +:+ msg).
Proof.
  intros Hr.
  assert ((∃ w, ws (FrameEVENT event) = Some w ∧ s = PublishStatusSent ∧ e = Some w)
    ∨ (s = PublishStatusSent ∧ e = None)
    ∨ (s = PublishStatusSucceeded
       ∧ ((∃ msg, OkReply true msg ∈ occ)
          ∨ (∃ ev, Received (Some ev) ∈ occ ∧ ID ev = ID event))
       ∧ (e = None ∨ ∃ msg, OkReply false msg ∈ occ ∧ e = Some ("msg: " +:+ msg)))
    ∨ (s = PublishStatusFailed
       ∧ ∃ msg, OkReply false msg ∈ occ ∧ e = Some ("msg: " +:+ msg))) as Hcases.
  { destruct (ws (FrameEVENT event)) as [w|] eqn:Hw.
    - left. exists w. rewrite (Publish_write_failure _ _ _ _ _ _ _ _ w Hw) in Hr.
      by injection Hr as <- <-.
    - right.
      destruct (Connection r) as [conn|] eqn:Hc.
      + rewrite (Publish_outcome _ _ _ _ _ _ _ _ conn Hc Hw) in Hr.
        pose proof (Publish_wait_sound call (ID event) sent occ s e) as Hs.
        destruct (Publish_wait call (ID event) sent occ) as [[res|] a]; simpl in *;
          [| done].
        injection Hr as ->. destruct (Hs eq_refl) as [[-> ->] | [? | ?]]; auto.
      + exfalso. revert Hr. unfold Publish, default_timeout, Subscribe.
        destruct (Deadline ctx); simpl; rewrite Hw, Hc;
          by rewrite (proj1 (leave_outcome _ _ _ _ _ _ _)). }
  destruct Hcases as [(w & Hw & -> & ->) | [[-> ->] | [(-> & Hc & He) | (-> & m & Hm & ->)]]].
  - split_and!; [by left | done | done |]. intros x [= ->]. by left.
  - split_and!; [by left | done | done | done].
  - split_and!; [by right; right | done | done |].
    intros x Hx. right. destruct He as [-> | (m & Hm & ->)]; [done |].
    injection Hx as <-. by exists m.
  - split_and!; [by right; left | done | by exists m |].
    intros x [= <-]. right. by exists m.
Qed.







(** X14.  The error of a negative acknowledgement is never cleared: when
    an event with the published identity, or a positive
    acknowledgement, comes after it while [Publish] is still in its
    loop, the call returns [succeeded] together with that error. *)
Theorem Publish_can_succeed_with_an_error ws r n call ctx now event conn pre post msg :
  Connection r = Some conn →
  ws (FrameEVENT event) = None →
  forallb (Publish_waits (ID event)) pre = true →
  let run := Publish ws r n call ctx now event in
  (∀ ev, ID ev = ID event →
     outcome (run (pre ++ OkReply false msg :: Received (Some ev) :: post))
     = Returned (PublishStatusSucceeded, Some ("msg: " +:+ msg)))
  ∧ (∀ msg',
     outcome (run (pre ++ [OkReply false msg; OkReply true msg']))
     = Returned (PublishStatusSucceeded, Some ("msg: " +:+ msg))).
Proof.
  intros Hc Hw Hpre run. unfold run. split.
  - intros ev Hev. rewrite (Publish_outcome _ _ _ _ _ _ _ _ conn) by done.
    rewrite Publish_wait_app by done. simpl.
    rewrite Hev, String.eqb_refl. done.
  - intros msg'. rewrite (Publish_outcome _ _ _ _ _ _ _ _ conn) by done.
    by rewrite Publish_wait_app by done.
Qed.

(** ** What the calls leave alone *)

Lemma written_app a b : written (a ++ b) = written a ++ written b.
Proof.
  induction a as [|x a IH]; [done |]. destruct x; simpl; by rewrite ?IH.
Qed.

Lemma Auth_okCallback_written call ok msg c :
  written (Auth_okCallback call ok msg c).2 = [].
Proof.
  unfold Auth_okCallback. by destruct ok.
Qed.

Lemma Auth_callbacks_written call c early :
  written (Auth_callbacks call c early).2 = [].
Proof.
  revert c. induction early as [|[ok msg] early IH]; intros c; [done |].
  simpl. pose proof (Auth_okCallback_written call ok msg c) as Hk.
  destruct (Auth_okCallback call ok msg c) as [c' a].
  specialize (IH c'). destruct (Auth_callbacks call c' early) as [c'' a'].
  simpl in *. by rewrite written_app, Hk, IH.
Qed.

Lemma Auth_return_written call c occ : written (Auth_return call c occ).2 = [].
Proof.
  revert c. induction occ as [|o occ IH]; intros c; [done |].
  destruct o as [ok msg | ev | | cause | ]; simpl; auto.
  pose proof (Auth_okCallback_written call ok msg c) as Hk.
  destruct (Auth_okCallback call ok msg c) as [c' a].
  specialize (IH c'). destruct (Auth_return call c' occ) as [res a'].
  simpl in *. by rewrite written_app, Hk, IH.
Qed.

Lemma Auth_wait_written call c occ : written (Auth_wait call c occ).2 = [].
Proof.
  destruct (canceled c) eqn:Hc.
  - rewrite Auth_wait_over by done. apply Auth_return_written.
  - induction occ as [|o occ IH]; simpl; rewrite Hc; [done |].
    destruct o as [ok msg | ev | | cause | ]; auto.
    + pose proof (Auth_okCallback_written call ok msg c) as Hk.
      destruct (Auth_okCallback call ok msg c) as [c' a].
      pose proof (Auth_return_written call c' occ) as Hr.
      destruct (Auth_return call c' occ) as [res a'].
      simpl in *. by rewrite written_app, Hk, Hr.
    + pose proof (Auth_return_written call c occ) as Hr.
      by destruct (Auth_return call c occ) as [res a'].
Qed.

(** X15.  [Auth] opens no subscription and writes one frame: on every
    path the subscription table and the subscription counter are as
    before, and the "AUTH" frame is the only frame written. *)
Theorem Auth_opens_no_subscription ws r n call ctx now event early occ :
  let a := Auth ws r n call ctx now event early occ in
  subscriptions (relay_after a) = subscriptions r
  ∧ counter_after a = n
  ∧ written (actions a) = [FrameAUTH event].
Proof.
  unfold Auth, default_timeout, leave.
  pose proof (Auth_callbacks_written call
                {| status := PublishStatusFailed; err := None; canceled := false |}
                early) as He.
  destruct (Auth_callbacks call _ early) as [c1 a1]. simpl in He.
  pose proof (Auth_wait_written call
                {| status := PublishStatusSent; err := err c1; canceled := canceled c1 |}
                occ) as Hw.
  destruct (Deadline ctx); simpl;
    destruct (ws (FrameAUTH event)); simpl;
    try destruct (Auth_wait call _ occ) as [[res|] acts]; simpl in *;
    rewrite ?written_app, ?He, ?Hw; done.
Qed.



(** ** QuerySync *)



End MoreCalls.

(** * The further properties at concrete inputs *)

Module MoreRuns.
Import Sample Cases.

(** X2 at a notice, a challenge and a second notice. *)
Lemma notices_and_challenges_in_order_witness :
  Forall2 broadcast
    [frame_NOTICE "slow down"; frame_AUTH "c-1"; frame_NOTICE "bye"]
    [GoNotices "slow down"; GoChallenges "c-1"; GoNotices "bye"]
  ∧ dispatcher waiting [frame_NOTICE "slow down"; frame_AUTH "c-1"; frame_NOTICE "bye"]
    = (waiting, [GoNotices "slow down"; GoChallenges "c-1"; GoNotices "bye"], Running).
Proof.
  assert (Forall2 (broadcast (H:=collaborators))
            [frame_NOTICE "slow down"; frame_AUTH "c-1"; frame_NOTICE "bye"]
            [GoNotices "slow down"; GoChallenges "c-1"; GoNotices "bye"]) as Hb.
  { constructor; [| constructor; [| constructor; [| constructor]]].
    - left. exists [q "NOTICE"; q "slow down"]. split; [| reflexivity].
      eexists. split_and!; [reflexivity | reflexivity | reflexivity | simpl; lia
                           | simpl; lia | reflexivity].
    - right. exists [q "AUTH"; q "c-1"]. split; [| reflexivity].
      eexists. split_and!; [reflexivity | reflexivity | reflexivity | simpl; lia
                           | simpl; lia | reflexivity].
    - left. exists [q "NOTICE"; q "bye"]. split; [| reflexivity].
      eexists. split_and!; [reflexivity | reflexivity | reflexivity | simpl; lia
                           | simpl; lia | reflexivity]. }
  split; [exact Hb |].
  exact (notices_and_challenges_in_order waiting _ _ Hb).
Defined.

Lemma tagged_OK3 : tagged frame_OK3 "OK" 3 [q "OK"; q "e1"; enc_bool true].
Proof.
  eexists. split_and!; [reflexivity | reflexivity | reflexivity | simpl; lia
                       | simpl; lia | reflexivity].
Defined.

(** X3 at an acknowledgement of three elements, read twice. *)
Lemma OK_frame_calls_the_callback_witness :
  tagged frame_OK3 "OK" 3 [q "OK"; q "e1"; enc_bool true]
  ∧ dispatcher waiting [frame_OK3; frame_OK3]
    = (waiting, [Call (AuthCallback 4) true EmptyString;
                 Call (AuthCallback 4) true EmptyString], Running).
Proof.
  split; [exact tagged_OK3 |].
  pose proof (OK_frame_calls_the_callback waiting frame_OK3 _ 2 tagged_OK3)
    as (_ & _ & _ & Hd).
  exact Hd.
Defined.

(** X5: with a filter the goroutine survives an event that does not
    match; without any filter the same frame makes it panic. *)
Lemma dispatcher_survives_with_filters_witness :
  has_filters subscribed
  ∧ (dispatcher subscribed [frame_EVENT "7" e2; frame_EOSE "7"]).2 = Running
  ∧ (dispatcher unfiltered [frame_EVENT "7" e2; frame_EOSE "7"]).2 = Crashed
  ∧ ∃ subId sub, subscriptions unfiltered !! subId = Some sub ∧ Filters sub = [].
Proof.
  assert (has_filters (H:=collaborators) subscribed) as Hf.
  { intros subId sub Hs. unfold subscribed in Hs. simpl in Hs.
    apply lookup_singleton_Some in Hs as [_ <-]. discriminate. }
  assert ((dispatcher unfiltered [frame_EVENT "7" e2; frame_EOSE "7"]).2 = Crashed)
    as Hc by (vm_compute; reflexivity).
  pose proof (dispatcher_survives_with_filters subscribed
                [frame_EVENT "7" e2; frame_EOSE "7"]) as [Hrun _].
  pose proof (dispatcher_survives_with_filters unfiltered
                [frame_EVENT "7" e2; frame_EOSE "7"]) as [_ Hcrash].
  split_and!; [exact Hf | exact (Hrun Hf) | exact Hc | exact (Hcrash Hc)].
Defined.

(** X6: a ping is answered whatever its payload. *)
Lemma every_ping_is_answered_witness :
  (dispatcher subscribed [ping; frame_EOSE "7"; ping]).2 = Running
  ∧ pongs (dispatcher subscribed [ping; frame_EOSE "7"; ping]).1.2 = 2%nat.
Proof.
  assert ((dispatcher subscribed [ping; frame_EOSE "7"; ping]).2 = Running) as Hr
    by (vm_compute; reflexivity).
  split; [exact Hr |].
  exact (proj2 (every_ping_is_answered subscribed [ping; frame_EOSE "7"; ping]) Hr).
Defined.

(** X12 at a refusal followed by the deadline. *)
Lemma Publish_status_is_backed_witness :
  outcome (Publish always_writes relay 0 1 no_deadline 0 e1
             [OkReply false "blocked"; CtxDone DeadlineExceeded])
  = Returned (PublishStatusFailed, Some "msg: blocked")
  ∧ ∃ msg, OkReply false msg ∈ [OkReply false "blocked"; CtxDone DeadlineExceeded].
Proof.
  assert (outcome (Publish always_writes relay 0 1 no_deadline 0 e1
                     [OkReply false "blocked"; CtxDone DeadlineExceeded])
          = Returned (PublishStatusFailed, Some "msg: blocked")) as Hr
    by reflexivity.
  split; [exact Hr |].
  destruct (Publish_status_is_backed _ _ _ _ _ _ _ _ _ _ Hr) as (_ & _ & Hf & _).
  exact (Hf eq_refl).
Defined.


(** X14 at a refusal followed by the echo. *)
Lemma Publish_can_succeed_with_an_error_witness :
  Connection relay = Some {| KeepAliveTimeout := 10 * Second; RecIntvlMin := 5 * Second |}
  ∧ always_writes (FrameEVENT e1) = None
  ∧ forallb (Publish_waits (ID e1)) [Received (Some e2)] = true
  ∧ outcome (Publish always_writes relay 0 1 no_deadline 0 e1
               ([Received (Some e2)] ++ OkReply false "blocked" :: Received (Some e1) :: []))
    = Returned (PublishStatusSucceeded, Some "msg: blocked").
Proof.
  split_and!; [reflexivity | reflexivity | reflexivity |].
  exact (proj1 (Publish_can_succeed_with_an_error always_writes relay 0 1 no_deadline 0
                  e1 _ [Received (Some e2)] [] "blocked" eq_refl eq_refl eq_refl)
           e1 eq_refl).
Defined.

End MoreRuns.
